(** * chess64: the search and strength core of script.js

    A shallow embedding of the AI part of [script.js] (material evaluation,
    ELO-to-strength table, capture-first move ordering, negamax with
    alpha-beta pruning, top-level move choice and the blunder branch),
    followed by the properties of that code.

    The rules engine (chess.js) is an external collaborator: it appears as
    the interface [Chess], and its contract (undo reverts a move, the board
    is eight rows of eight cells) appears as explicit hypotheses.

    Two places are read twice.  The material loop is read on the boards of
    the rules engine ([material]) and on arbitrary values, with JavaScript's
    inherited properties and its TypeError ([material_js]); the two agree on
    the boards of the rules engine.  The arithmetic on [Math.random()] is
    read on real numbers ([makeAIMove]) and on doubles
    ([makeAIMove_double]). *)

From Stdlib Require Import ZArith QArith Qround Lia Ascii String Sorted.
From stdpp Require Import gmap strings list pretty.

Local Open Scope string_scope.
Local Open Scope list_scope.

(** ** JavaScript numbers that occur as scores

    Scores are the integers produced by [evaluateBoard] together with the two
    infinities used to initialise running maxima and the search window.  Only
    unary minus and comparisons are applied to them, so no NaN can arise. *)

Inductive Score : Type :=
  | NegInf
  | Fin (z : Z)
  | PosInf.

(** Unary minus. *)
Definition sneg (a : Score) : Score :=
  match a with
  | NegInf => PosInf
  | Fin z => Fin (- z)
  | PosInf => NegInf
  end.

(** [a < b]. *)
Definition sltb (a b : Score) : bool :=
  match a, b with
  | NegInf, NegInf => false
  | NegInf, _ => true
  | Fin x, Fin y => (x <? y)%Z
  | Fin _, PosInf => true
  | Fin _, NegInf => false
  | PosInf, _ => false
  end.

(** [a > b] and [a >= b]. *)
Definition sgtb (a b : Score) : bool := sltb b a.
Definition sgeb (a b : Score) : bool := negb (sltb a b).

Definition slt (a b : Score) : Prop := sltb a b = true.
Definition sle (a b : Score) : Prop := sltb b a = false.

(** The larger of two scores (used on the specification side only). *)
Definition smax (a b : Score) : Score := if sltb a b then b else a.

Definition is_finite (a : Score) : Prop := exists z, a = Fin z.

(** ** Array.prototype.sort

    [arr.sort(cmp)] with a comparator returning a number: a negative result
    puts the first argument first.  ECMAScript 2019 requires the sort to be
    stable; insertion from the right end gives exactly the stable result. *)

Section JsSort.
Context {A : Type} (cmp : A -> A -> Z).

Fixpoint js_insert (x : A) (l : list A) : list A :=
  match l with
  | [] => [x]
  | y :: l' => if (cmp x y <=? 0)%Z then x :: y :: l' else y :: js_insert x l'
  end.

Fixpoint js_sort (l : list A) : list A :=
  match l with
  | [] => []
  | x :: l' => js_insert x (js_sort l')
  end.
End JsSort.

(** ** The rules engine, as the code uses it *)

(** A piece as returned by [chess.board()]: [{ type, color }]. *)
Record Piece : Type := { type : string; color : string }.

Abbreviation Board := (list (list (option Piece))).

(** The methods of the [Chess] object that the AI calls.  [moves] returns SAN
    strings; [move] and [undo] mutate the object, modelled by returning the
    new state. *)
Class Chess (P : Type) : Type := {
  in_checkmate : P -> bool;
  in_draw : P -> bool;
  in_stalemate : P -> bool;
  in_threefold_repetition : P -> bool;
  game_over : P -> bool;
  turn : P -> string;
  board : P -> Board;
  moves : P -> list string;
  move : P -> string -> P;
  undo : P -> P
}.

(** Contract of chess.js: undoing a legal move restores the object. *)
Definition undo_restores {P} `{Chess P} : Prop :=
  forall (c : P) (m : string), m ∈ moves c -> undo (move c m) = c.

(** Contract of chess.js: [board()] is eight rows of eight cells. *)
Definition board_8x8 (b : Board) : Prop :=
  length b = 8%nat /\ Forall (fun row => length row = 8%nat) b.

(** The precondition of the spec: a position without legal moves is reported
    as game over. *)
Definition stuck_is_over {P} `{Chess P} : Prop :=
  forall c : P, moves c = [] -> game_over c = true.

(** ** Evaluation *)

(** The object literal [pieceValue], as a map of its own properties. *)
Definition pieceValue : gmap string Z :=
  {[ "p" := 100%Z; "n" := 320%Z; "b" := 330%Z;
     "r" := 500%Z; "q" := 900%Z; "k" := 20000%Z ]}.

(** [pieceValue[piece.type] || 0] for the types of the rules engine and for
    any key that is not a property of the object: a missing key reads
    [undefined], which [||] replaces by 0.  ([valueOf_js] below also covers
    the keys inherited from [Object.prototype].) *)
Definition valueOf (t : string) : Z := default 0%Z (pieceValue !! t).

(** Body of the inner loop for one cell: [null] is skipped, otherwise [v] is
    added for colour ['w'] and subtracted for any other colour. *)
Definition cellValue (cell : option Piece) : Z :=
  match cell with
  | None => 0%Z
  | Some piece =>
      let v := valueOf (type piece) in
      if String.eqb (color piece) "w" then v else (- v)%Z
  end.

(** [board[r][f]].  A cell index past the end of a row reads [undefined],
    which [piece != null] rejects like [null].  chess.js always returns eight
    rows, so the row lookup never fails; a missing row is read as a row of
    empty cells here ([material_js] below throws instead). *)
Definition cellAt (b : Board) (r f : nat) : option Piece :=
  match b !! r with
  | Some row => match row !! f with Some cell => cell | None => None end
  | None => None
  end.

(** The two nested [for] loops over ranks and files 0..7. *)
Definition material (b : Board) : Z :=
  foldl (fun value r =>
           foldl (fun value f => (value + cellValue (cellAt b r f))%Z)
                 value (seq 0 8))
        0%Z (seq 0 8).

(** *** The material loop on arbitrary values

    [valueOf], [cellAt] and [material] above read the code on the boards the
    rules engine produces.  The definitions below follow JavaScript where
    the two differ: a property lookup on the object literal also finds what
    the literal inherits from [Object.prototype], and indexing a missing row
    throws. *)

(** The property names an object literal inherits from [Object.prototype]. *)
Definition inherited_keys : list string :=
  [ "constructor"; "__defineGetter__"; "__defineSetter__"; "hasOwnProperty";
    "__lookupGetter__"; "__lookupSetter__"; "isPrototypeOf";
    "propertyIsEnumerable"; "toString"; "valueOf"; "__proto__";
    "toLocaleString" ].

(** The value of [v] and of the summand [(color === 'w') ? v : -v]: a number,
    NaN, or an inherited function or object. *)
Inductive Operand : Type :=
  | ONum (z : Z)
  | ONaN
  | OObj.

(** The running [value]: a number, NaN, or a string (its text is not
    modelled). *)
Inductive JsValue : Type :=
  | JNum (z : Z)
  | JNaN
  | JStr.

Inductive Outcome : Type :=
  | Returns (v : JsValue)
  | TypeError.

(** [pieceValue[t] || 0]: an own key gives its number, an inherited key a
    truthy function or object, any other key [undefined], hence 0. *)
Definition valueOf_js (t : string) : Operand :=
  match pieceValue !! t with
  | Some v => ONum v
  | None => if decide (t ∈ inherited_keys) then OObj else ONum 0
  end.

(** [(piece.color === 'w') ? v : -v]; unary minus turns a function or an
    object into NaN. *)
Definition summand_js (piece : Piece) : Operand :=
  let v := valueOf_js (type piece) in
  if String.eqb (color piece) "w" then v
  else match v with
       | ONum z => ONum (- z)
       | ONaN => ONaN
       | OObj => ONaN
       end.

(** [value += x]: numbers add, NaN absorbs numbers, and a function, an
    object or a string on either side makes a string. *)
Definition add_js (value : JsValue) (x : Operand) : JsValue :=
  match value, x with
  | JStr, _ => JStr
  | _, OObj => JStr
  | JNum a, ONum b => JNum (a + b)
  | _, _ => JNaN
  end.

(** The inner loop over [f] for a row that exists; a cell past the end of
    the row reads [undefined] and is skipped like [null]. *)
Definition row_js (row : list (option Piece)) (value : JsValue) : JsValue :=
  foldl (fun value f =>
           match row !! f with
           | Some (Some piece) => add_js value (summand_js piece)
           | _ => value
           end)
        value (seq 0 8).

(** The outer loop over [r]: [board[r][f]] throws when [board[r]] is
    [undefined]. *)
Definition material_js (b : Board) : Outcome :=
  foldl (fun acc r =>
           match acc with
           | TypeError => TypeError
           | Returns value =>
               match b !! r with
               | Some row => Returns (row_js row value)
               | None => TypeError
               end
           end)
        (Returns (JNum 0)) (seq 0 8).

Section Evaluate.
Context {P : Type} `{Chess P}.

Definition evaluateBoard (chess : P) : Z :=
  if in_checkmate chess then
    (if String.eqb (turn chess) "w" then (-999999)%Z else 999999%Z)
  else if in_draw chess || in_stalemate chess || in_threefold_repetition chess
  then 0%Z
  else material (board chess).

(** [evaluateBoard] with the material loop on arbitrary values. *)
Definition evaluateBoard_js (chess : P) : Outcome :=
  if in_checkmate chess then
    (if String.eqb (turn chess) "w" then Returns (JNum (-999999))
     else Returns (JNum 999999))
  else if in_draw chess || in_stalemate chess || in_threefold_repetition chess
  then Returns (JNum 0)
  else material_js (board chess).
End Evaluate.

(** ** Strength table *)

Record Params : Type := { depth : nat; randomness : Q }.

(** The initial values [depth = 2], [randomness = 0.25] of the source are
    overwritten on every path of the [if] chain. *)
Definition eloToParams (elo : Z) : Params :=
  if (elo <? 900)%Z then {| depth := 1; randomness := 0.7%Q |}
  else if (elo <? 1100)%Z then {| depth := 2; randomness := 0.5%Q |}
  else if (elo <? 1400)%Z then {| depth := 2; randomness := 0.35%Q |}
  else if (elo <? 1700)%Z then {| depth := 3; randomness := 0.2%Q |}
  else if (elo <? 2000)%Z then {| depth := 4; randomness := 0.12%Q |}
  else if (elo <? 2300)%Z then {| depth := 5; randomness := 0.06%Q |}
  else {| depth := 6; randomness := 0.02%Q |}.

(** ** Move ordering *)

(** [s.includes('x')]. *)
Fixpoint includes_x (s : string) : bool :=
  match s with
  | EmptyString => false
  | String a s' => Ascii.eqb a "x"%char || includes_x s'
  end.

Definition isCap (m : string) : Z := if includes_x m then 1%Z else 0%Z.

(** The comparator [(a, b) => isCapB - isCapA]. *)
Definition captureFirst (a b : string) : Z := (isCap b - isCap a)%Z.

Definition orderMoves (movesList : list string) : list string :=
  js_sort captureFirst movesList.

Definition switchColor (color : string) : string :=
  if String.eqb color "w" then "b" else "w".

(** ** Search *)

(** The object returned by [getBestMove]: [{ move, score }], where [move] may
    still be [null]. *)
Record SearchResult : Type :=
  { result_move : option string; result_score : Score }.

Section Search.
Context {P : Type} `{Chess P}.

(** The leaf of [negamax]: the evaluation, seen from [perspectiveColor]. *)
Definition leafScore (chess : P) (perspectiveColor : string) : Score :=
  let evalScore := evaluateBoard chess in
  if String.eqb perspectiveColor "w" then Fin evalScore else Fin (- evalScore).

(** The [for] loop of [negamax] from index [i] on; [rec] is the recursive
    call at [depth - 1].  The object is threaded through [move], the
    recursive call and [undo]. *)
Fixpoint negamax_loop (rec : P -> Score -> Score -> Score * P)
    (rest : list string) (chess : P) (alpha beta max : Score) : Score * P :=
  match rest with
  | [] => (max, chess)
  | mv :: rest' =>
      let c1 := move chess mv in
      let '(r, c2) := rec c1 (sneg beta) (sneg alpha) in
      let score := sneg r in
      let c3 := undo c2 in
      let max := if sgtb score max then score else max in
      let alpha := if sgtb max alpha then max else alpha in
      if sgeb alpha beta then (max, c3)
      else negamax_loop rec rest' c3 alpha beta max
  end.

(** [negamax(chess, depth, alpha, beta, perspectiveColor)], for a depth that
    is a non-negative integer.  The recursive call passes
    [perspectiveColor] on as it is. *)
Fixpoint negamax (depth : nat) (chess : P) (alpha beta : Score)
    (perspectiveColor : string) : Score * P :=
  match depth with
  | O => (leafScore chess perspectiveColor, chess)
  | S d =>
      if game_over chess then (leafScore chess perspectiveColor, chess)
      else
        negamax_loop (fun c a b => negamax d c a b perspectiveColor)
                     (js_sort captureFirst (moves chess))
                     chess alpha beta NegInf
  end.

(** The [for] loop of [getBestMove]. *)
Fixpoint getBestMove_loop (maxDepth : nat) (aiColor : string)
    (rest : list string) (chess : P)
    (bestMove : option string) (bestScore : Score)
    : option string * Score * P :=
  match rest with
  | [] => (bestMove, bestScore, chess)
  | mv :: rest' =>
      let c1 := move chess mv in
      let '(r, c2) :=
        negamax (maxDepth - 1) c1 NegInf PosInf (switchColor aiColor) in
      let score := sneg r in
      let c3 := undo c2 in
      if sgtb score bestScore
      then getBestMove_loop maxDepth aiColor rest' c3 (Some mv) score
      else getBestMove_loop maxDepth aiColor rest' c3 bestMove bestScore
  end.

(** [getBestMove(chess, maxDepth, aiColor)]; [None] is the [null] returned
    for an empty move list.  [maxDepth - 1] is taken in [nat], which is the
    source's value for every [maxDepth >= 1] (the table gives 1..6); the
    properties below are stated at [S d]. *)
Definition getBestMove (chess : P) (maxDepth : nat) (aiColor : string)
    : option SearchResult * P :=
  let mvs := moves chess in
  if (length mvs =? 0)%nat then (None, chess)
  else
    let ordered := orderMoves mvs in
    let '(bestMove, bestScore, c') :=
      getBestMove_loop maxDepth aiColor ordered chess None NegInf in
    (Some {| result_move := bestMove; result_score := bestScore |}, c').

(** The loop of the blunder branch: one-ply scores, pushed in move order. *)
Fixpoint shallow_loop (perspective : string) (rest : list string)
    (game : P) (scored : list (string * Z)) : list (string * Z) * P :=
  match rest with
  | [] => (scored, game)
  | mv :: rest' =>
      let g1 := move game mv in
      let sc :=
        (evaluateBoard g1 * (if String.eqb perspective "w" then 1 else -1))%Z in
      let g2 := undo g1 in
      shallow_loop perspective rest' g2 (scored ++ [(mv, sc)])
  end.

(** The comparator [(a, b) => b.score - a.score]. *)
Definition byScoreDesc (a b : string * Z) : Z := (snd b - snd a)%Z.

(** [Math.floor(u * n)] for a draw [u] of [Math.random()] taken as a real
    number in [0, 1), the product computed exactly ([floorProduct] below
    rounds it as the doubles of the code do). *)
Definition randomIndex (u : Q) (n : nat) : nat :=
  Z.to_nat (Qfloor (u * inject_Z (Z.of_nat n))).

Definition Qltb (a b : Q) : bool := negb (Qle_bool b a).

(** [game.move(m)] for an element read from an array; an index out of range
    reads [undefined], for which chess.js plays nothing. *)
Definition play (game : P) (m : option string) : option string * P :=
  match m with
  | Some mv => (Some mv, move game mv)
  | None => (None, game)
  end.

(** [!best || !best.move]: [null] and the empty string are falsy. *)
Definition usable_move (best : option SearchResult) : option string :=
  match best with
  | Some {| result_move := Some mv |} =>
      if String.eqb mv "" then None else Some mv
  | _ => None
  end.

(** [makeAIMove()], with the DOM reads as arguments ([elo] the parsed
    slider value, [aiSide] the select's value) and the successive results
    of [Math.random()] as [u1], [u2]; the DOM updates are left out.  The
    result is the move passed to [game.move] and the new state.  The draws
    are real numbers here and the comparison and the product are exact;
    [makeAIMove_double] below is the same function on doubles, and the two
    differ only where a rounding crosses the threshold or an integer. *)
Definition makeAIMove (game : P) (elo : Z) (aiSide : string) (u1 u2 : Q)
    : option string * P :=
  if game_over game then (None, game)
  else
    let params := eloToParams elo in
    let aiColor := if String.eqb aiSide "white" then "w" else "b" in
    let perspective := aiColor in
    let mvs := moves game in
    if (length mvs =? 0)%nat then (None, game)
    else
      let '(best, g1) := getBestMove game (depth params) perspective in
      match usable_move best with
      | None => play g1 (mvs !! randomIndex u1 (length mvs))
      | Some bestMove =>
          if Qltb u1 (randomness params) then
            let k := Nat.min 4 (length mvs) in
            let '(scored, g2) := shallow_loop perspective mvs g1 [] in
            let sorted := js_sort byScoreDesc scored in
            let pick :=
              sorted !! randomIndex u2 (Nat.min k (length scored)) in
            play g2 (fst <$> pick)
          else play g1 (Some bestMove)
      end.

(** *** Specification-side searches *)

(** Full-width negamax on the game tree: the code of [negamax] without the
    window and without the cutoff, on positions instead of a mutated
    object; same leaves, same move order. *)
Fixpoint negamax_full (depth : nat) (chess : P) (perspectiveColor : string)
    : Score :=
  match depth with
  | O => leafScore chess perspectiveColor
  | S d =>
      if game_over chess then leafScore chess perspectiveColor
      else
        foldl (fun max mv =>
                 smax max (sneg (negamax_full d (move chess mv) perspectiveColor)))
              NegInf (js_sort captureFirst (moves chess))
  end.

(** The recursive case as the spec words it: the same code, but recursing
    with the opposite perspective. *)
Fixpoint negamax_alternating (depth : nat) (chess : P) (alpha beta : Score)
    (perspectiveColor : string) : Score * P :=
  match depth with
  | O => (leafScore chess perspectiveColor, chess)
  | S d =>
      if game_over chess then (leafScore chess perspectiveColor, chess)
      else
        negamax_loop
          (fun c a b => negamax_alternating d c a b (switchColor perspectiveColor))
          (js_sort captureFirst (moves chess))
          chess alpha beta NegInf
  end.
End Search.

(** ** Doubles

    [Math.random()] returns a double in [0, 1); the blunder test compares it
    with the double of the literal, and the index is the floor of a product
    rounded to the nearest double.  [makeAIMove] above takes the draws as
    real numbers and computes exactly; [makeAIMove_double] below follows the
    double arithmetic of the code. *)

(** A double in [0, 1): the number [mant / 2 ^ scale].  Every double of
    that range has this form with [mant] below [2 ^ 53] and [scale] from 53
    to 1074 (0.5 is [2 ^ 52 / 2 ^ 53]). *)
Record Draw : Type := { mant : Z; scale : Z }.

Definition valid_draw (u : Draw) : Prop :=
  (0 <= mant u < 2 ^ 53)%Z /\ (53 <= scale u <= 1074)%Z.

Definition draw_value (u : Draw) : Q := mant u # Z.to_pos (2 ^ scale u).

(** The integer nearest to [a / b], ties to the even one. *)
Definition round_half_even (a b : Z) : Z :=
  let f := (a / b)%Z in
  let r := (a mod b)%Z in
  if (2 * r <? b)%Z then f
  else if (b <? 2 * r)%Z then (f + 1)%Z
  else if Z.even f then f else (f + 1)%Z.

(** The binary digits kept behind the point when [a / b] (positive, below
    [2 ^ 53]) is written with 53 significant bits; no double has more than
    1074. *)
Definition shift53 (a b : Z) : Z :=
  let k1 := (52 - (Z.log2 a - Z.log2 b))%Z in
  let k := if (a * 2 ^ k1 <? 2 ^ 52 * b)%Z then (k1 + 1)%Z else k1 in
  Z.min k 1074.

(** The double nearest to [a / b], as the pair [(m, k)] with value
    [m / 2 ^ k]. *)
Definition round53 (a b : Z) : Z * Z :=
  if (a <=? 0)%Z then (0%Z, 0%Z)
  else
    let k := shift53 a b in
    (round_half_even (a * 2 ^ k) b, k).

(** The double a decimal literal denotes. *)
Definition double_of_literal (q : Q) : Q :=
  let '(m, k) := round53 (Qnum q) (Zpos (Qden q)) in
  m # Z.to_pos (2 ^ k).

(** [Math.floor(u * n)] in double arithmetic. *)
Definition floorProduct (u : Draw) (n : nat) : nat :=
  let '(m, k) := round53 (mant u * Z.of_nat n) (2 ^ scale u) in
  Z.to_nat (m / 2 ^ k).

Section SearchDouble.
Context {P : Type} `{Chess P}.

(** [makeAIMove()] with the results of [Math.random()] as doubles. *)
Definition makeAIMove_double (game : P) (elo : Z) (aiSide : string)
    (u1 u2 : Draw) : option string * P :=
  if game_over game then (None, game)
  else
    let params := eloToParams elo in
    let aiColor := if String.eqb aiSide "white" then "w" else "b" in
    let perspective := aiColor in
    let mvs := moves game in
    if (length mvs =? 0)%nat then (None, game)
    else
      let '(best, g1) := getBestMove game (depth params) perspective in
      match usable_move best with
      | None => play g1 (mvs !! floorProduct u1 (length mvs))
      | Some bestMove =>
          if Qltb (draw_value u1) (double_of_literal (randomness params)) then
            let k := Nat.min 4 (length mvs) in
            let '(scored, g2) := shallow_loop perspective mvs g1 [] in
            let sorted := js_sort byScoreDesc scored in
            let pick :=
              sorted !! floorProduct u2 (Nat.min k (length scored)) in
            play g2 (fst <$> pick)
          else play g1 (Some bestMove)
      end.
End SearchDouble.

(** ** The page around the AI

    The handlers of the page, with the DOM reads as arguments ([playAI] the
    checkbox, [aiSide] the select's value) and the DOM writes as results. *)

(** The further methods of the [Chess] object that the handlers call:
    [in_check()]; [move({ from, to, promotion: 'q' })], where [None] is the
    [null] returned for an illegal move, which leaves the object as it is;
    [history({ verbose: true })], each entry reduced to its [san]. *)
Class ChessPage (P : Type) `{Chess P} : Type := {
  in_check : P -> bool;
  move_from_to : P -> string -> string -> option P;
  history : P -> list string
}.


(** Contract of chess.js: [turn()] is ['w'] or ['b']. *)
Definition turn_is_wb {P} `{Chess P} : Prop :=
  forall c : P, turn c = "w" \/ turn c = "b".

(** [piece.search(/^c/) !== -1] for a one-letter pattern. *)
Definition starts_with (ch : ascii) (s : string) : bool :=
  match s with
  | String a _ => Ascii.eqb a ch
  | EmptyString => false
  end.

Section Page.
Context {P : Type} `{ChessPage P}.

(** [onDragStart]: [Some false] is [return false], [None] is falling off
    the end (the drag is allowed). *)
Definition onDragStart (game : P) (playAI : bool) (aiSide : string)
    (piece : string) : option bool :=
  if game_over game then Some false
  else if playAI
          && ((String.eqb (turn game) "w" && String.eqb aiSide "white")
              || (String.eqb (turn game) "b" && String.eqb aiSide "black"))
  then Some false
  else if (String.eqb (turn game) "w" && starts_with "b" piece)
          || (String.eqb (turn game) "b" && starts_with "w" piece)
  then Some false
  else None.

(** The test shared by [onDrop] and the checkbox handler: the side to move,
    spelled out, is the AI's side. *)
Definition aiToMove (game : P) (aiSide : string) : bool :=
  let turn := if String.eqb (turn game) "w" then "white" else "black" in
  String.eqb turn aiSide.

(** [onDrop]: the returned value ([Some "snapback"] or [undefined]), the
    object afterwards, and whether [makeAIMove] was handed to [setTimeout]. *)
Definition onDrop (game : P) (playAI : bool) (aiSide : string)
    (source target : string) : option string * P * bool :=
  match move_from_to game source target with
  | None => (Some "snapback", game, false)
  | Some game' =>
      if playAI && negb (game_over game')
      then (None, game', aiToMove game' aiSide)
      else (None, game', false)
  end.

(** The body of the checkbox handler's timeout: whether [makeAIMove] runs. *)
Definition aiMoveDue (game : P) (aiSide : string) : bool :=
  aiToMove game aiSide && negb (game_over game).


(** [updateStatus]: the text written to the status element. *)
Definition updateStatus (game : P) : string :=
  if in_checkmate game then
    "Checkmate. " +:+ (if String.eqb (turn game) "w" then "Black" else "White")
    +:+ " wins"
  else if in_draw game then "Draw"
  else
    let status :=
      (if String.eqb (turn game) "w" then "White" else "Black") +:+ " to move" in
    if in_check game then status +:+ " â€” check" else status.

(** [history[i] ? history[i].san : '']. *)
Definition sanAt (history : list string) (i : nat) : string :=
  match history !! i with
  | Some san => san
  | None => ""
  end.

(** One iteration of the loop of [updateMoveList] at index [i]: the move
    number and the two half-moves. *)
Definition moveRow (history : list string) (i : nat) : nat * string * string :=
  let moveNum := (i / 2 + 1)%nat in
  let white := sanAt history i in
  let black := sanAt history (i + 1) in
  (moveNum, white, black).

(** The template literal assigned to [li.innerHTML]. *)
Definition liHTML (row : nat * string * string) : string :=
  let '(moveNum, white, black) := row in
  "<strong>" +:+ pretty moveNum +:+ ".</strong> " +:+ white +:+ " "
  +:+ (if String.eqb black "" then "" else " " +:+ black).

(** The rows built by [for (i = 0; i < history.length; i += 2)]: [i] runs
    over the even numbers below the length. *)
Definition moveRows (history : list string) : list (nat * string * string) :=
  (fun k => moveRow history (2 * k)) <$> seq 0 ((length history + 1) / 2).

(** [updateMoveList]: the [innerHTML] of the [<li>] elements appended. *)
Definition updateMoveList (game : P) : list string :=
  liHTML <$> moveRows (history game).
End Page.

(** ** A small rules engine to run the code on

    Positions are finite game trees; the object keeps the current node and
    the stack of nodes to return to on [undo], like the history of chess.js.
    As in chess.js, a position without moves is over. *)

#[warnings="-register-all"] Inductive Tree : Type :=
  Node (san : string) (over mate draw stale rep : bool) (side : string)
       (b : Board) (kids : list Tree).

Record Toy : Type := { cur : Tree; hist : list Tree }.

(** The SAN string of the move that leads to a node. *)
Definition san_of (t : Tree) : string :=
  match t with Node san _ _ _ _ _ _ _ _ => san end.

Definition kids_of (t : Tree) : list Tree :=
  match t with Node _ _ _ _ _ _ _ _ kids => kids end.

Fixpoint find_kid (m : string) (kids : list Tree) : option Tree :=
  match kids with
  | [] => None
  | t :: kids' => if String.eqb (san_of t) m then Some t else find_kid m kids'
  end.

(** An illegal move leaves the object as it is (chess.js returns [null]). *)
Definition toy_move (c : Toy) (m : string) : Toy :=
  match find_kid m (kids_of (cur c)) with
  | Some t => {| cur := t; hist := cur c :: hist c |}
  | None => c
  end.

Definition toy_undo (c : Toy) : Toy :=
  match hist c with
  | t :: h => {| cur := t; hist := h |}
  | [] => c
  end.

#[export] Instance toy_chess : Chess Toy := {|
  in_checkmate c := match cur c with Node _ _ x _ _ _ _ _ _ => x end;
  in_draw c := match cur c with Node _ _ _ x _ _ _ _ _ => x end;
  in_stalemate c := match cur c with Node _ _ _ _ x _ _ _ _ => x end;
  in_threefold_repetition c := match cur c with Node _ _ _ _ _ x _ _ _ => x end;
  game_over c :=
    match cur c with Node _ x _ _ _ _ _ _ kids => x || bool_decide (kids = []) end;
  turn c := match cur c with Node _ _ _ _ _ _ x _ _ => x end;
  board c := match cur c with Node _ _ _ _ _ _ _ x _ => x end;
  moves c := san_of <$> kids_of (cur c);
  move := toy_move;
  undo := toy_undo
|}.

Definition start (t : Tree) : Toy := {| cur := t; hist := [] |}.

(** An engine that breaks the terminality contract: the parent ([true]) has
    the single move [Kh1] to a child ([false]) that has no moves and is not
    reported as over. *)
#[export] Instance stuck_chess : Chess bool := {|
  in_checkmate _ := false;
  in_draw _ := false;
  in_stalemate _ := false;
  in_threefold_repetition _ := false;
  game_over _ := false;
  turn (c : bool) := if c then "w" else "b";
  board _ := replicate 8 (replicate 8 None);
  moves (c : bool) := if c then ["Kh1"] else [];
  move (c : bool) m := if c then (if String.eqb m "Kh1" then false else c) else c;
  undo _ := true
|}.

(** *** Sample positions *)

Module Samples.
Definition pc (col t : string) : option Piece :=
  Some {| type := t; color := col |}.

Definition empty_row : list (option Piece) := replicate 8 None.

(** Eight rows of eight cells from the leading cells of the leading rows. *)
Definition mk_board (rows : list (list (option Piece))) : Board :=
  take 8 (((fun row => take 8 (row ++ empty_row)) <$> rows)
          ++ replicate 8 empty_row).

Definition start_board : Board :=
  [ pc "b" <$> ["r"; "n"; "b"; "q"; "k"; "b"; "n"; "r"];
    replicate 8 (pc "b" "p");
    empty_row; empty_row; empty_row; empty_row;
    replicate 8 (pc "w" "p");
    pc "w" <$> ["r"; "n"; "b"; "q"; "k"; "b"; "n"; "r"] ].

(** A position that is neither mate nor draw. *)
Definition pos (san side : string) (b : Board) (kids : list Tree) : Tree :=
  Node san false false false false false side b kids.

(** Kings, a white queen and a black rook: material +400. *)
Definition queen_and_rook : Board :=
  mk_board [[pc "b" "k"; pc "b" "r"]; [pc "w" "q"]; [pc "w" "k"]].

(** The queen has been taken: material -500. *)
Definition rook_only : Board :=
  mk_board [[pc "b" "k"]; [pc "b" "r"]; [pc "w" "k"]].

(** A position of the search horizon: it has a move of its own, which the
    samples never search. *)
Definition quiet (san side : string) (b : Board) : Tree :=
  pos san side b [pos "Kb1" (switchColor side) b []].

(** After White's [Qd5]: Black to move can take the queen or not. *)
Definition after_Qd5 : Tree :=
  pos "Qd5" "b" queen_and_rook
    [ quiet "Kh8" "w" queen_and_rook;
      quiet "Rxd5" "w" rook_only ].

(** After White's [Qd1]: the queen is safe whatever Black plays. *)
Definition after_Qd1 : Tree :=
  pos "Qd1" "b" queen_and_rook
    [ quiet "Kh8" "w" queen_and_rook;
      quiet "Rb8" "w" queen_and_rook ].

(** White to move, choosing between hanging the queen and keeping it. *)
Definition middlegame : Tree :=
  pos "" "w" queen_and_rook [after_Qd5; after_Qd1].

(** A position with three replies to [Qd5], of which the first one searched
    already refutes the move, so that the other two are pruned. *)
Definition with_cutoff : Tree :=
  pos "" "w" queen_and_rook
    [ pos "Qd1" "b" queen_and_rook
        [ quiet "Kh8" "w" queen_and_rook ];
      pos "Qd5" "b" queen_and_rook
        [ quiet "Rxd5" "w" rook_only;
          quiet "Kh8" "w" queen_and_rook;
          quiet "Kg8" "w" queen_and_rook ] ].

Definition mated_white : Tree :=
  Node "Qh2#" true true false false false "w" queen_and_rook [].
Definition mated_black : Tree :=
  Node "Qh7#" true true false false false "b" queen_and_rook [].
Definition stalemated : Tree :=
  Node "Qc7" true false true true false "b" queen_and_rook [].
Definition opening : Tree := pos "" "w" start_board [quiet "e4" "b" start_board].

(** A board with a piece of a type the table does not know. *)
Definition with_stranger : Board :=
  mk_board [[pc "b" "k"; pc "b" "z"]; [pc "w" "q"]; [pc "w" "k"]].
End Samples.

(** ** Specification-side notions

    Used to state the properties; none of them is part of the program. *)

(** What a fail-soft result [r] for the window [(a, b)] says about the
    full-width value [v]. *)
Definition Bound (a b r v : Score) : Prop :=
  (sle r a -> sle v r) /\ (slt a r -> slt r b -> v = r) /\ (sle b r -> sle r v).

(** Loop invariant: [a0] is the alpha the node was entered with, [a] the
    current alpha, [max] the running maximum of the pruned loop and [vmax]
    the running maximum of the full-width loop. *)
Definition Inv (a0 b a max vmax : Score) : Prop :=
  slt a b /\ a = smax a0 max /\
  (sle max a0 -> sle vmax max) /\ (slt a0 max -> vmax = max).

Definition known_types : list string := ["p"; "n"; "b"; "r"; "q"; "k"].

Definition Zsum (l : list Z) : Z := foldr Z.add 0%Z l.

(** The material table in the spec's words. *)
Definition spec_piece_value (t : string) : Z :=
  match t with
  | "p" => 100
  | "n" => 320
  | "b" => 330
  | "r" => 500
  | "q" => 900
  | "k" => 20000
  | _ => 0
  end%Z.

(** The contribution of one square in the spec's words: the value is added
    for a White-owned piece and subtracted for a Black-owned one. *)
Definition spec_cell (cell : option Piece) : Z :=
  match cell with
  | None => 0%Z
  | Some piece =>
      if decide (color piece = "w") then spec_piece_value (type piece)
      else if decide (color piece = "b") then (- spec_piece_value (type piece))%Z
      else 0%Z
  end.

(** The sum over every piece on the board. *)
Definition spec_material (b : Board) : Z := Zsum (spec_cell <$> concat b).

(** A board as chess.js produces it: 8x8, pieces of the six types, owned by
    ['w'] or ['b']. *)
Definition chess_piece (piece : Piece) : Prop :=
  type piece ∈ known_types /\ (color piece = "w" \/ color piece = "b").

Definition chess_cell (cell : option Piece) : Prop :=
  match cell with Some piece => chess_piece piece | None => True end.

Definition chess_board (b : Board) : Prop :=
  board_8x8 b /\ Forall chess_cell (concat b).

(** The board with every piece of an unknown type taken off. *)
Definition erase_unknown (b : Board) : Board :=
  fmap (M := list)
    (fmap (M := list) (fun cell : option Piece =>
       match cell with
       | Some piece =>
           if decide (type piece ∈ known_types) then cell else None
       | None => None
       end)) b.

(** The one-ply score of a move in the blunder branch. *)
Definition shallow_score {P} `{Chess P} (perspective : string) (game : P)
    (mv : string) : string * Z :=
  (mv, (evaluateBoard (move game mv)
        * (if String.eqb perspective "w" then 1 else -1))%Z).

#[local] Instance chess_cell_dec cell : Decision (chess_cell cell).
Proof. destruct cell; simpl; unfold chess_piece; apply _. Defined.

#[local] Instance board_8x8_dec b : Decision (board_8x8 b).
Proof. unfold board_8x8. apply _. Defined.

#[local] Instance chess_board_dec b : Decision (chess_board b).
Proof. unfold chess_board. apply _. Defined.

(** The page methods of the sample engine: a position is in check when it
    is mate, a drop names the move by its target, and the history is the SAN
    strings along the path from the root. *)
#[export] Instance toy_page : ChessPage Toy := {|
  in_check c := in_checkmate c;
  move_from_to c source target :=
    if bool_decide (target ∈ moves c) then Some (move c target) else None;
  history c := tail (reverse (san_of <$> (cur c :: hist c)))
|}.

(** The board with the owner of every piece switched. *)
Definition flip_piece (piece : Piece) : Piece :=
  {| type := type piece; color := switchColor (color piece) |}.

Definition flip_board (b : Board) : Board :=
  fmap (M := list) (fmap (M := list) (fmap (M := option) flip_piece)) b.

(** The score of a root move as [getBestMove] computes it. *)
Definition child_score {P} `{Chess P} (maxDepth : nat) (aiColor : string)
    (chess : P) (mv : string) : Score :=
  sneg (negamax (maxDepth - 1) (move chess mv) NegInf PosInf
                (switchColor aiColor)).1.

(** A score as large as the whole board in kings. *)
Definition bounded_score (a : Score) : Prop :=
  exists z, a = Fin z /\ (- 1280000 <= z <= 1280000)%Z.

(** The half-moves shown by a row. *)
Definition row_moves (row : nat * string * string) : list string :=
  let '(_, white, black) := row in
  if String.eqb black "" then [white] else [white; black].

(** The page methods of the engine that breaks the terminality contract. *)
#[export] Instance stuck_page : ChessPage bool := {|
  in_check _ := false;
  move_from_to (c : bool) source target :=
    if c && String.eqb target "Kh1" then Some false else None;
  history (c : bool) := if c then [] else ["Kh1"]
|}.

Module MoreSamples.
Import Samples.

(** A position and the same position with the colours switched. *)
Definition white_up : Tree := quiet "Qd1" "b" queen_and_rook.
Definition black_up : Tree := quiet "Qd1" "w" (flip_board queen_and_rook).

(** White to move, with the king in check. *)
Definition in_play : Tree := pos "" "w" queen_and_rook [after_Qd5; after_Qd1].
End MoreSamples.

(** Two positions that differ by switching the owner of every piece and the
    side to move. *)
Definition mirrored {P} `{Chess P} (c c' : P) : Prop :=
  in_checkmate c' = in_checkmate c /\
  in_draw c' = in_draw c /\
  in_stalemate c' = in_stalemate c /\
  in_threefold_repetition c' = in_threefold_repetition c /\
  turn c' = switchColor (turn c) /\
  board c' = flip_board (board c).

(** A board none of whose pieces has a type named like an inherited
    property. *)
Definition plain_cell (cell : option Piece) : Prop :=
  match cell with
  | Some piece => type piece ∉ inherited_keys
  | None => True
  end.

Definition plain_board (b : Board) : Prop := Forall plain_cell (concat b).

#[local] Instance plain_cell_dec cell : Decision (plain_cell cell).
Proof. destruct cell; simpl; apply _. Defined.

Module Captures.
Import Samples.

(** Kings, a white queen, and a black rook, knight, bishop and pawn that the
    queen can take: material -350. *)
Definition crowded : Board :=
  mk_board [[pc "b" "k"; pc "b" "r"; pc "b" "n"; pc "b" "b"; pc "b" "p"];
            [pc "w" "q"]; [pc "w" "k"]].

Definition rook_taken : Board :=
  mk_board [[pc "b" "k"; pc "w" "q"; pc "b" "n"; pc "b" "b"; pc "b" "p"];
            []; [pc "w" "k"]].
Definition knight_taken : Board :=
  mk_board [[pc "b" "k"; pc "b" "r"; pc "w" "q"; pc "b" "b"; pc "b" "p"];
            []; [pc "w" "k"]].
Definition bishop_taken : Board :=
  mk_board [[pc "b" "k"; pc "b" "r"; pc "b" "n"; pc "w" "q"; pc "b" "p"];
            []; [pc "w" "k"]].
Definition pawn_taken : Board :=
  mk_board [[pc "b" "k"; pc "b" "r"; pc "b" "n"; pc "b" "b"; pc "w" "q"];
            []; [pc "w" "k"]].

(** White to move with six legal moves, in the order of generation; the
    one-ply scores are -350, -250, -30, -350, 150 and -20. *)
Definition six_moves : Tree :=
  pos "" "w" crowded
    [ quiet "Kb1" "b" crowded;
      quiet "Qxd7" "b" pawn_taken;
      quiet "Qxb8" "b" knight_taken;
      quiet "Kb2" "b" crowded;
      quiet "Qxa8" "b" rook_taken;
      quiet "Qxc8" "b" bishop_taken ].

(** The doubles 0.5, 0.7 and 0.6666666666666666. *)
Definition half : Draw := {| mant := 2 ^ 52; scale := 53 |}.
Definition seven_tenths : Draw := {| mant := 6305039478318694; scale := 53 |}.
Definition two_thirds : Draw := {| mant := 6004799503160661; scale := 53 |}.

(** A white queen and a black piece of type [constructor]. *)
Definition with_constructor : Board :=
  mk_board [[pc "b" "k"; pc "b" "constructor"]; [pc "w" "q"]; [pc "w" "k"]].
Definition with_toString : Board :=
  mk_board [[pc "b" "k"; pc "w" "toString"]; [pc "w" "q"]; [pc "w" "k"]].
End Captures.

(** * Properties *)

(** ** Order facts on scores *)

Ltac ltb_case x y :=
  let E := fresh "E" in
  destruct (Z.lt_ge_cases x y) as [E|E];
  [ rewrite (proj2 (Z.ltb_lt x y) E) in *
  | rewrite (proj2 (Z.ltb_ge x y) E) in * ].

Ltac score_cases :=
  unfold slt, sle, sgtb, sgeb, smax in *;
  repeat match goal with x : Score |- _ => destruct x end;
  simpl in *;
  repeat (match goal with
          | H : context [(?x <? ?y)%Z] |- _ => ltb_case x y
          | |- context [(?x <? ?y)%Z] => ltb_case x y
          end; simpl in *);
  intros; repeat split;
  try congruence; try (f_equal; lia); try lia.

Lemma sneg_involutive a : sneg (sneg a) = a.
Proof. destruct a; simpl; f_equal; lia. Qed.

Lemma sle_refl a : sle a a.
Proof. score_cases. Qed.

Lemma sle_trans a b c : sle a b -> sle b c -> sle a c.
Proof. score_cases. Qed.

Lemma slt_neg a b : slt a b -> slt (sneg b) (sneg a).
Proof. score_cases. Qed.

Lemma sle_smax_l a b : sle a (smax a b).
Proof. score_cases. Qed.

Lemma sle_smax_r a b : sle b (smax a b).
Proof. score_cases. Qed.

Lemma sltb_NegInf_r a : sltb a NegInf = false.
Proof. by destruct a. Qed.

(** ** Facts on [js_sort] *)

Section JsSortFacts.
Context {A : Type} (cmp : A -> A -> Z).

Lemma js_insert_perm x l : js_insert cmp x l ≡ₚ x :: l.
Proof.
  induction l as [|y l IH]; simpl; [done|].
  destruct (cmp x y <=? 0)%Z; [done|].
  rewrite IH. apply Permutation_swap.
Qed.

Lemma js_sort_perm l : js_sort cmp l ≡ₚ l.
Proof.
  induction l as [|x l IH]; simpl; [done|].
  by rewrite js_insert_perm, IH.
Qed.

Lemma js_sort_elem x l : x ∈ js_sort cmp l <-> x ∈ l.
Proof. by rewrite js_sort_perm. Qed.

Lemma js_sort_length l : length (js_sort cmp l) = length l.
Proof. by rewrite js_sort_perm. Qed.
End JsSortFacts.

(** ** The search restores the object *)

Section Restore.
Context {P : Type} `{Chess P}.
Hypothesis Hundo : undo_restores.

Lemma negamax_loop_restores rec rest (c : P) alpha beta max :
  (forall c' a b, (rec c' a b).2 = c') ->
  (forall m, m ∈ rest -> undo (move c m) = c) ->
  (negamax_loop rec rest c alpha beta max).2 = c.
Proof.
  intros Hrec.
  revert alpha max.
  induction rest as [|mv rest IH]; intros alpha max Hlegal; simpl; [done|].
  specialize (Hrec (move c mv) (sneg beta) (sneg alpha)).
  destruct (rec (move c mv) (sneg beta) (sneg alpha)) as [r c2].
  simpl in Hrec. subst c2.
  rewrite (Hlegal mv) by apply list_elem_of_here.
  match goal with |- context [if ?b then _ else _] =>
    destruct b eqn:Hcut end; simpl.
  - repeat match goal with |- context [if ?b then _ else _] => destruct b end;
      done.
  - apply IH. intros m Hm. apply Hlegal. by apply list_elem_of_further.
Qed.

Lemma negamax_restores depth (c : P) alpha beta p :
  (negamax depth c alpha beta p).2 = c.
Proof.
  revert c alpha beta.
  induction depth as [|d IH]; intros c alpha beta; simpl; [done|].
  destruct (game_over c); [done|].
  apply negamax_loop_restores.
  - intros c' a b. apply IH.
  - intros m Hm. apply Hundo. by apply js_sort_elem in Hm.
Qed.

Lemma getBestMove_loop_restores maxDepth aiColor rest (c : P) bm bs :
  (forall m, m ∈ rest -> undo (move c m) = c) ->
  (getBestMove_loop maxDepth aiColor rest c bm bs).2 = c.
Proof.
  revert bm bs.
  induction rest as [|mv rest IH]; intros bm bs Hlegal; simpl; [done|].
  pose proof (negamax_restores (maxDepth - 1) (move c mv) NegInf PosInf
                (switchColor aiColor)) as Hr.
  destruct (negamax _ _ _ _ _) as [r c2]. simpl in Hr. subst c2.
  rewrite (Hlegal mv) by apply list_elem_of_here.
  destruct (sgtb _ _); apply IH; intros m Hm; apply Hlegal;
    by apply list_elem_of_further.
Qed.

Lemma getBestMove_restores (c : P) maxDepth aiColor :
  (getBestMove c maxDepth aiColor).2 = c.
Proof.
  unfold getBestMove.
  destruct (length (moves c) =? 0)%nat; [done|].
  pose proof (getBestMove_loop_restores maxDepth aiColor
                (orderMoves (moves c)) c None NegInf) as Hr.
  destruct (getBestMove_loop _ _ _ _ _ _) as [[bm bs] c'].
  simpl in *. apply Hr.
  intros m Hm. apply Hundo. by apply js_sort_elem in Hm.
Qed.
End Restore.

(** ** Alpha-beta against full width *)

Lemma Bound_exact a b v : Bound a b v v.
Proof. unfold Bound. split; [|split]; intros; auto using sle_refl. Qed.

Lemma Bound_neg a b r v :
  Bound (sneg b) (sneg a) r v -> Bound a b (sneg r) (sneg v).
Proof.
  unfold Bound. intros (H1 & H2 & H3). split; [|split].
  - intros Hs. assert (sle (sneg a) r) as Hr by (clear - Hs; score_cases).
    specialize (H3 Hr). clear - H3. score_cases.
  - intros Ha Hb.
    assert (slt (sneg b) r) as Hr1 by (clear - Hb; score_cases).
    assert (slt r (sneg a)) as Hr2 by (clear - Ha; score_cases).
    by rewrite (H2 Hr1 Hr2).
  - intros Hs. assert (sle r (sneg b)) as Hr by (clear - Hs; score_cases).
    specialize (H1 Hr). clear - H1. score_cases.
Qed.

Lemma Bound_full_window r v : Bound NegInf PosInf r v -> r = v.
Proof.
  unfold Bound. intros (H1 & H2 & H3).
  destruct r as [|z|].
  - assert (sle v NegInf) as Hv by (apply H1; score_cases).
    clear - Hv. score_cases.
  - symmetry. apply H2; score_cases.
  - assert (sle PosInf v) as Hv by (apply H3; score_cases).
    clear - Hv. score_cases.
Qed.

Lemma Inv_init a b : slt a b -> Inv a b a NegInf NegInf.
Proof.
  intros Hab. unfold Inv. split; [exact Hab|]. split; [|split].
  - unfold smax. by rewrite sltb_NegInf_r.
  - intros _. apply sle_refl.
  - intros Hc. exfalso. clear - Hc. score_cases.
Qed.

Lemma Inv_final a0 b a max vmax :
  Inv a0 b a max vmax -> Bound a0 b max vmax.
Proof.
  unfold Inv, Bound. intros (Hab & -> & Hlo & Hhi). split; [|split]; auto.
  intros Hb. exfalso. clear - Hab Hb. score_cases.
Qed.

(** One iteration that does not cut off keeps the invariant. *)
Lemma Inv_step a0 b a max vmax s w :
  Inv a0 b a max vmax -> Bound a b s w ->
  let max' := if sgtb s max then s else max in
  let a' := if sgtb max' a then max' else a in
  sgeb a' b = false ->
  Inv a0 b a' max' (smax vmax w).
Proof.
  unfold Inv, Bound.
  intros (Hab & -> & Hlo & Hhi) (B1 & B2 & B3) Hcut.
  destruct (sgtb s max) eqn:Hs.
  - (* the reply raises the running maximum *)
    destruct (sgtb s (smax a0 max)) eqn:Hsa.
    + assert (slt s b) as Hsb by (clear - Hcut; score_cases).
      assert (w = s) as -> by (apply B2; [exact Hsa | exact Hsb]).
      assert (sle vmax s) as Hv.
      { destruct (sltb a0 max) eqn:Ham.
        - rewrite (Hhi Ham). clear - Hs. score_cases.
        - specialize (Hlo Ham). clear - Hlo Hs. score_cases. }
      split; [|split; [|split]].
      * exact Hsb.
      * clear - Hsa Hs. score_cases.
      * intros Hc. exfalso. clear - Hc Hsa. score_cases.
      * intros _. clear - Hv. score_cases.
    + assert (sle w s) as Hw by (apply B1; clear - Hsa; score_cases).
      assert (sle s a0) as Hsa0 by (clear - Hsa Hs; score_cases).
      assert (sle max a0) as Hma0 by (clear - Hsa0 Hs; score_cases).
      specialize (Hlo Hma0).
      split; [|split; [|split]].
      * exact Hab.
      * clear - Hsa0 Hma0. score_cases.
      * intros _. clear - Hw Hlo Hs. score_cases.
      * intros Hc. exfalso. clear - Hc Hsa0. score_cases.
  - (* the running maximum stays *)
    assert (sgtb max (smax a0 max) = false) as -> by (clear; score_cases).
    assert (sle w s) as Hw by (apply B1; clear - Hs; score_cases).
    split; [exact Hab|]. split; [reflexivity|]. split.
    + intros Hc. specialize (Hlo Hc). clear - Hlo Hw Hs. score_cases.
    + intros Hc. rewrite (Hhi Hc). clear - Hw Hs. score_cases.
Qed.

(** An iteration that cuts off was raised to at least beta by this reply. *)
Lemma Inv_cut a0 b a max vmax s w :
  Inv a0 b a max vmax -> Bound a b s w ->
  let max' := if sgtb s max then s else max in
  let a' := if sgtb max' a then max' else a in
  sgeb a' b = true ->
  max' = s /\ sle b s /\ sle s w.
Proof.
  unfold Inv, Bound.
  intros (Hab & -> & Hlo & Hhi) (B1 & B2 & B3) Hcut.
  assert ((if sgtb s max then s else max) = s /\ sle b s) as [-> Hbs]
    by (clear - Hab Hcut; score_cases).
  auto.
Qed.

Lemma Bound_cut a0 b a max vmax s v :
  Inv a0 b a max vmax -> sle b s -> sle s v -> Bound a0 b s v.
Proof.
  unfold Inv, Bound. intros (Hab & -> & _ & _) Hbs Hsv.
  split; [|split]; auto.
  - intros Hc. exfalso. clear - Hab Hbs Hc. score_cases.
  - intros _ Hc. exfalso. clear - Hbs Hc. score_cases.
Qed.

Lemma foldl_smax_ge {A} (f : A -> Score) l acc :
  sle acc (foldl (fun max x => smax max (f x)) acc l).
Proof.
  revert acc. induction l as [|x l IH]; intros acc; simpl.
  - apply sle_refl.
  - eapply sle_trans; [apply sle_smax_l | apply IH].
Qed.

Section AlphaBeta.
Context {P : Type} `{Chess P}.
Hypothesis Hundo : undo_restores.

(** The loop of [negamax] against the full-width fold, for any recursive
    call [rec] that restores the object and is sound for the values [V]
    of the children. *)
Lemma negamax_loop_sound (V : string -> Score) rec rest (c : P) a0 beta :
  (forall c' a b, (rec c' a b).2 = c') ->
  (forall m, m ∈ rest -> undo (move c m) = c) ->
  (forall m a b, m ∈ rest -> slt a b ->
                 Bound a b (rec (move c m) a b).1 (V m)) ->
  forall alpha max vmax,
    Inv a0 beta alpha max vmax ->
    Bound a0 beta (negamax_loop rec rest c alpha beta max).1
          (foldl (fun acc mv => smax acc (sneg (V mv))) vmax rest).
Proof.
  intros Hst.
  induction rest as [|mv rest IH]; intros Hlegal Hrec alpha max vmax HInv;
    simpl.
  - eapply Inv_final, HInv.
  - assert (slt (sneg beta) (sneg alpha)) as Hwin
      by (apply slt_neg; apply HInv).
    pose proof (Hrec mv _ _ (list_elem_of_here _ _) Hwin) as Hb.
    pose proof (Hst (move c mv) (sneg beta) (sneg alpha)) as Hs.
    destruct (rec (move c mv) (sneg beta) (sneg alpha)) as [r c2].
    simpl in Hb, Hs. subst c2.
    apply Bound_neg in Hb.
    rewrite (Hlegal mv) by apply list_elem_of_here.
    destruct (sgeb _ beta) eqn:Hcut; simpl.
    + destruct (Inv_cut _ _ _ _ _ _ _ HInv Hb Hcut) as (-> & Hbs & Hsw).
      eapply Bound_cut; [exact HInv | exact Hbs |].
      eapply sle_trans; [exact Hsw|].
      eapply sle_trans; [apply sle_smax_r | apply foldl_smax_ge].
    + apply IH.
      * intros m Hm. apply Hlegal. by apply list_elem_of_further.
      * intros m a b Hm. apply Hrec. by apply list_elem_of_further.
      * exact (Inv_step _ _ _ _ _ _ _ HInv Hb Hcut).
Qed.

(** Fail-soft soundness of [negamax] for every window [alpha < beta]. *)
Lemma negamax_sound depth (c : P) alpha beta p :
  slt alpha beta ->
  Bound alpha beta (negamax depth c alpha beta p).1 (negamax_full depth c p).
Proof.
  revert c alpha beta.
  induction depth as [|d IH]; intros c alpha beta Hwin; simpl.
  - apply Bound_exact.
  - destruct (game_over c); simpl; [apply Bound_exact|].
    apply (negamax_loop_sound (fun m => negamax_full d (move c m) p)).
    + intros c' a b. by apply negamax_restores.
    + intros m Hm. apply Hundo. by apply js_sort_elem in Hm.
    + intros m a b _ Hab. by apply IH.
    + by apply Inv_init.
Qed.
End AlphaBeta.

(** ** Material *)

Lemma valueOf_unknown t : t ∉ known_types -> valueOf t = 0%Z.
Proof.
  unfold known_types. intros Hn.
  repeat (apply not_elem_of_cons in Hn; destruct Hn as [? Hn]).
  unfold valueOf, pieceValue.
  rewrite !lookup_insert_ne by done.
  by rewrite lookup_singleton_ne.
Qed.

Lemma valueOf_known t : t ∈ known_types -> valueOf t = spec_piece_value t.
Proof.
  unfold known_types. intros Hk.
  repeat (apply elem_of_cons in Hk; destruct Hk as [->|Hk]; [by vm_compute|]).
  by apply elem_of_nil in Hk.
Qed.

Lemma cellValue_chess_piece piece :
  chess_piece piece -> cellValue (Some piece) = spec_cell (Some piece).
Proof.
  intros [Ht Hc]. unfold cellValue, spec_cell.
  rewrite (valueOf_known _ Ht).
  destruct Hc as [Hc|Hc]; rewrite Hc; reflexivity.
Qed.

(** A counting loop that reads [l[i]] for [i] from 0 to [l.length - 1] is a
    fold over the elements. *)
Lemma foldl_seq_lookup {A B} (step : B -> option A -> B) (l pre : list A) acc :
  foldl (fun v i => step v ((pre ++ l) !! i)) acc (seq (length pre) (length l))
  = foldl (fun v x => step v (Some x)) acc l.
Proof.
  revert pre acc. induction l as [|x l IH]; intros pre acc; simpl; [done|].
  rewrite list_lookup_middle by done.
  specialize (IH (pre ++ [x]) (step acc (Some x))).
  rewrite length_app, Nat.add_1_r in IH. simpl in IH.
  rewrite <- IH.
  by rewrite <- app_assoc.
Qed.

Lemma foldl_add_Zsum {A} (g : A -> Z) l acc :
  foldl (fun v x => (v + g x)%Z) acc l = (acc + Zsum (g <$> l))%Z.
Proof.
  revert acc. induction l as [|x l IH]; intros acc; csimpl; [lia|].
  rewrite IH. lia.
Qed.

Lemma Zsum_app l1 l2 : Zsum (l1 ++ l2) = (Zsum l1 + Zsum l2)%Z.
Proof. induction l1 as [|x l1 IH]; simpl; [done|]. rewrite IH. lia. Qed.

(** On an 8x8 board the two loops add up [cellValue] over all cells. *)
Lemma material_8x8 b :
  board_8x8 b -> material b = Zsum (cellValue <$> concat b).
Proof.
  intros [Hlen Hrows]. unfold material.
  pose (step := fun (value : Z) (orow : option (list (option Piece))) =>
    foldl (fun value f =>
             (value + cellValue
                        match orow with
                        | Some row =>
                            match row !! f with Some cell => cell | None => None end
                        | None => None
                        end)%Z) value (seq 0 8)).
  change (foldl (fun v r => step v (([] ++ b) !! r)) 0%Z (seq (length (@nil (list (option Piece)))) 8)
          = Zsum (cellValue <$> concat b)).
  rewrite <- Hlen, foldl_seq_lookup. clear Hlen.
  enough (forall acc,
            foldl (fun v x => step v (Some x)) acc b
            = (acc + Zsum (cellValue <$> concat b))%Z) as Hgen
    by (rewrite Hgen; lia).
  induction Hrows as [|row b Hrow _ IH]; intros acc; csimpl; [lia|].
  rewrite IH, fmap_app, Zsum_app.
  enough (step acc (Some row) = (acc + Zsum (cellValue <$> row))%Z) as -> by lia.
  unfold step.
  pose (st := fun (value : Z) (ocell : option (option Piece)) =>
    (value + cellValue match ocell with Some cell => cell | None => None end)%Z).
  change (foldl (fun v f => st v (([] ++ row) !! f)) acc
                (seq (length (@nil (option Piece))) 8)
          = (acc + Zsum (cellValue <$> row))%Z).
  rewrite <- Hrow, foldl_seq_lookup.
  unfold st. apply foldl_add_Zsum.
Qed.

Lemma material_chess_board b : chess_board b -> material b = spec_material b.
Proof.
  intros [Hshape Hpieces]. rewrite (material_8x8 _ Hshape).
  unfold spec_material. f_equal.
  apply list_fmap_ext. intros i [piece|] Hi; [|done].
  apply cellValue_chess_piece.
  exact (Forall_lookup_1 _ _ _ _ Hpieces Hi).
Qed.

Lemma cellAt_erase_unknown b r f :
  cellValue (cellAt (erase_unknown b) r f) = cellValue (cellAt b r f).
Proof.
  unfold cellAt, erase_unknown.
  rewrite list_lookup_fmap.
  destruct (b !! r) as [row|]; simpl; [|done].
  rewrite list_lookup_fmap.
  destruct (row !! f) as [[piece|]|]; simpl; try done.
  destruct (decide _) as [|Hn]; [done|].
  simpl. by rewrite (valueOf_unknown _ Hn), Tauto.if_same.
Qed.

(** ** Capture-first ordering *)

Lemma js_insert_capture x l :
  includes_x x = true -> js_insert captureFirst x l = x :: l.
Proof.
  intros Hx. destruct l as [|y l]; simpl; [done|].
  unfold captureFirst, isCap. rewrite Hx.
  by destruct (includes_x y).
Qed.

Lemma js_insert_quiet x caps quiet :
  includes_x x = false ->
  Forall (fun m => includes_x m = true) caps ->
  Forall (fun m => includes_x m = false) quiet ->
  js_insert captureFirst x (caps ++ quiet) = caps ++ x :: quiet.
Proof.
  intros Hx Hcaps Hquiet.
  induction Hcaps as [|y caps Hy _ IH]; simpl.
  - destruct Hquiet as [|z quiet Hz _]; simpl; [done|].
    unfold captureFirst, isCap. by rewrite Hx, Hz.
  - unfold captureFirst at 1, isCap. rewrite Hx, Hy. simpl. by rewrite IH.
Qed.

Lemma Forall_filter_true {A} (f : A -> bool) l :
  Forall (fun m => f m = true) (List.filter f l).
Proof.
  apply List.Forall_forall. intros m Hm. by apply List.filter_In in Hm as [_ ?].
Qed.

Lemma Forall_filter_false {A} (f : A -> bool) l :
  Forall (fun m => f m = false) (List.filter (fun m => negb (f m)) l).
Proof.
  apply List.Forall_forall. intros m Hm.
  apply List.filter_In in Hm as [_ Hm]. by destruct (f m).
Qed.

(** The stable result in closed form: the captures in their original order,
    then the other moves in their original order. *)
Lemma orderMoves_partition l :
  orderMoves l
  = List.filter includes_x l ++ List.filter (fun m => negb (includes_x m)) l.
Proof.
  unfold orderMoves.
  induction l as [|x l IH]; simpl; [done|].
  rewrite IH.
  destruct (includes_x x) eqn:Hx; simpl.
  - by apply js_insert_capture.
  - apply js_insert_quiet; auto using Forall_filter_true, Forall_filter_false.
Qed.

Lemma filter_app_id {A} (f : A -> bool) l1 l2 :
  Forall (fun m => f m = true) l1 -> Forall (fun m => f m = false) l2 ->
  List.filter f (l1 ++ l2) = l1.
Proof.
  intros H1 H2. rewrite List.filter_app.
  replace (List.filter f l2) with (@nil A).
  - rewrite app_nil_r. induction H1 as [|x l1 Hx _ IH]; simpl; [done|].
    by rewrite Hx, IH.
  - induction H2 as [|x l2 Hx _ IH]; simpl; [done|]. by rewrite Hx.
Qed.

(** ** Sorting by shallow score *)

Lemma js_insert_desc x l :
  StronglySorted (fun a b : string * Z => (b.2 <= a.2)%Z) l ->
  StronglySorted (fun a b : string * Z => (b.2 <= a.2)%Z)
                 (js_insert byScoreDesc x l).
Proof.
  induction 1 as [|y l Hl IH Hy]; simpl.
  - repeat constructor.
  - unfold byScoreDesc at 1. destruct (Z.leb_spec (y.2 - x.2) 0).
    + constructor; [by constructor|].
      constructor; [lia|].
      eapply Forall_impl; [exact Hy|]. simpl. intros; lia.
    + constructor; [exact IH|].
      rewrite js_insert_perm. constructor; [lia | exact Hy].
Qed.

Lemma js_sort_desc l :
  StronglySorted (fun a b : string * Z => (b.2 <= a.2)%Z)
                 (js_sort byScoreDesc l).
Proof.
  induction l as [|x l IH]; simpl; [constructor|]. by apply js_insert_desc.
Qed.

(** ** Finite scores when stuck positions are reported as over *)

Section Finite.
Context {P : Type} `{Chess P}.
Hypothesis Hstuck : stuck_is_over.

Lemma leafScore_finite (c : P) p : is_finite (leafScore c p).
Proof. unfold leafScore. destruct (String.eqb p "w"); eexists; done. Qed.

Lemma negamax_loop_finite rec rest (c : P) alpha beta max :
  (forall c' a b, is_finite (rec c' a b).1) ->
  (max = NegInf /\ rest <> []) \/ is_finite max ->
  is_finite (negamax_loop rec rest c alpha beta max).1.
Proof.
  intros Hrec. revert c alpha max.
  induction rest as [|mv rest IH]; intros c alpha max Hmax; simpl.
  - destruct Hmax as [[_ ?]|?]; done.
  - destruct (Hrec (move c mv) (sneg beta) (sneg alpha)) as [z Hz].
    destruct (rec (move c mv) (sneg beta) (sneg alpha)) as [r c2].
    simpl in Hz. subst r. simpl.
    assert (is_finite (if sgtb (Fin (- z)) max then Fin (- z) else max))
      as Hfin.
    { destruct Hmax as [[-> _]|[y ->]]; [by eexists|].
      destruct (sgtb _ _); by eexists. }
    destruct (sgeb _ beta); simpl; [exact Hfin|].
    apply IH. by right.
Qed.

Lemma negamax_finite depth (c : P) alpha beta p :
  is_finite (negamax depth c alpha beta p).1.
Proof.
  revert c alpha beta.
  induction depth as [|d IH]; intros c alpha beta; simpl.
  - apply leafScore_finite.
  - destruct (game_over c) eqn:Hover; simpl; [apply leafScore_finite|].
    apply negamax_loop_finite; [intros; apply IH|].
    left. split; [done|]. intros Hnil.
    assert (moves c = []) as Hm.
    { apply length_zero_iff_nil.
      by rewrite <- (js_sort_length captureFirst), Hnil. }
    apply Hstuck in Hm. congruence.
Qed.

Lemma getBestMove_loop_some maxDepth aiColor rest (c : P) bm bs :
  (bm = None -> bs = NegInf) ->
  rest <> [] \/ bm <> None ->
  (getBestMove_loop maxDepth aiColor rest c bm bs).1.1 <> None.
Proof.
  revert c bm bs.
  induction rest as [|mv rest IH]; intros c bm bs Hlink Hne; simpl.
  - destruct Hne; done.
  - destruct (negamax_finite (maxDepth - 1) (move c mv) NegInf PosInf
                (switchColor aiColor)) as [z Hz].
    destruct (negamax _ _ _ _ _) as [r c2]. simpl in Hz. subst r. simpl.
    destruct (sgtb (Fin (- z)) bs) eqn:Hgt.
    + apply IH; [done | by right].
    + apply IH; [exact Hlink|]. right. intros ->.
      rewrite Hlink in Hgt by done. done.
Qed.
End Finite.

Lemma getBestMove_loop_member {P} `{Chess P} maxDepth aiColor rest (c : P) bm bs :
  (getBestMove_loop maxDepth aiColor rest c bm bs).1.1 = bm \/
  exists m, (getBestMove_loop maxDepth aiColor rest c bm bs).1.1 = Some m
            /\ m ∈ rest.
Proof.
  revert c bm bs.
  induction rest as [|mv rest IH]; intros c bm bs; simpl; [by left|].
  destruct (negamax _ _ _ _ _) as [r c2].
  destruct (sgtb _ _).
  - right. destruct (IH (undo c2) (Some mv) (sneg r)) as [->|(m & -> & Hm)].
    + exists mv. split; [done | apply list_elem_of_here].
    + exists m. split; [done | by apply list_elem_of_further].
  - destruct (IH (undo c2) bm bs) as [->|(m & -> & Hm)]; [by left|].
    right. exists m. split; [done | by apply list_elem_of_further].
Qed.

(** ** Random index *)

Local Open Scope Q_scope.


Local Close Scope Q_scope.

(** ** The blunder loop *)

Lemma shallow_loop_spec {P} `{Chess P} perspective rest (g : P) scored :
  (forall m, m ∈ rest -> undo (move g m) = g) ->
  shallow_loop perspective rest g scored
  = (scored ++ (shallow_score perspective g <$> rest), g).
Proof.
  revert scored.
  induction rest as [|mv rest IH]; intros scored Hlegal; simpl.
  - by rewrite app_nil_r.
  - rewrite (Hlegal mv) by apply list_elem_of_here.
    rewrite IH by (intros m Hm; apply Hlegal; by apply list_elem_of_further).
    by rewrite <- app_assoc.
Qed.

(** ** The sample engine keeps the contract *)

Lemma find_kid_member m kids :
  m ∈ (san_of <$> kids) -> exists t, find_kid m kids = Some t.
Proof.
  induction kids as [|t kids IH]; simpl; intros Hm.
  - by apply elem_of_nil in Hm.
  - destruct (String.eqb_spec (san_of t) m) as [|Hne]; [by eexists|].
    apply elem_of_cons in Hm as [->|Hm]; [done | by apply IH].
Qed.

Lemma toy_undo_restores : undo_restores (P := Toy).
Proof.
  intros [t h] m Hm. simpl in *.
  destruct (find_kid_member _ _ Hm) as [k Hk].
  unfold toy_move. simpl. by rewrite Hk.
Qed.

Lemma toy_stuck_is_over : stuck_is_over (P := Toy).
Proof.
  intros [[san over mate draw stale rep side b kids] h]. simpl.
  intros Hm. apply fmap_nil_inv in Hm. subst kids.
  by rewrite orb_true_r.
Qed.

Lemma material_erase_unknown b : material (erase_unknown b) = material b.
Proof.
  unfold material. cbn [foldl seq].
  by rewrite !cellAt_erase_unknown.
Qed.

(** ** The material loop on arbitrary values *)

Lemma valueOf_js_plain t :
  t ∉ inherited_keys -> valueOf_js t = ONum (valueOf t).
Proof.
  intros Ht. unfold valueOf_js, valueOf.
  destruct (pieceValue !! t); simpl; [done|].
  by destruct (decide (t ∈ inherited_keys)).
Qed.

Lemma add_js_plain (a : Z) piece :
  type piece ∉ inherited_keys ->
  add_js (JNum a) (summand_js piece) = JNum (a + cellValue (Some piece)).
Proof.
  intros Ht. unfold summand_js, cellValue.
  rewrite (valueOf_js_plain _ Ht). by destruct (String.eqb _ _).
Qed.

Lemma row_js_plain row (a : Z) :
  Forall plain_cell row ->
  row_js row (JNum a)
  = JNum (foldl (fun v f =>
                   (v + cellValue
                          match row !! f with
                          | Some cell => cell
                          | None => None
                          end)%Z) a (seq 0 8)).
Proof.
  intros Hrow. unfold row_js. generalize (seq 0 8) as l. intros l.
  revert a. induction l as [|f l IH]; intros a; cbn [foldl]; [done|].
  destruct (row !! f) as [[piece|]|] eqn:Hf.
  - rewrite add_js_plain by exact (Forall_lookup_1 _ _ _ _ Hrow Hf).
    apply IH.
  - cbn [cellValue]. rewrite Z.add_0_r. apply IH.
  - cbn [cellValue]. rewrite Z.add_0_r. apply IH.
Qed.

Lemma plain_board_row b r row :
  plain_board b -> b !! r = Some row -> Forall plain_cell row.
Proof.
  unfold plain_board. intros Hb Hr.
  apply Forall_concat in Hb. exact (Forall_lookup_1 _ _ _ _ Hb Hr).
Qed.

Lemma material_js_plain_aux b (l : list nat) (a : Z) :
  plain_board b ->
  Forall (fun r => (r < length b)%nat) l ->
  foldl (fun acc r =>
           match acc with
           | TypeError => TypeError
           | Returns value =>
               match b !! r with
               | Some row => Returns (row_js row value)
               | None => TypeError
               end
           end) (Returns (JNum a)) l
  = Returns (JNum (foldl (fun value r =>
                            foldl (fun value f =>
                                     (value + cellValue (cellAt b r f))%Z)
                                  value (seq 0 8)) a l)).
Proof.
  intros Hb. revert a.
  induction l as [|r l IH]; intros a Hl; cbn [foldl]; [done|].
  apply Forall_cons in Hl as [Hr Hl].
  destruct (lookup_lt_is_Some_2 b r Hr) as [row Hrow].
  rewrite Hrow, (row_js_plain row a (plain_board_row _ _ _ Hb Hrow)).
  rewrite IH by done. do 3 f_equal.
  unfold cellAt. by rewrite Hrow.
Qed.

Lemma material_js_plain b :
  (8 <= length b)%nat -> plain_board b ->
  material_js b = Returns (JNum (material b)).
Proof.
  intros Hlen Hb. apply material_js_plain_aux; [done|].
  apply Forall_forall. intros r Hr. apply elem_of_seq in Hr. lia.
Qed.

Lemma material_js_missing_row b :
  (length b < 8)%nat -> material_js b = TypeError.
Proof.
  intros Hlen. unfold material_js.
  assert (length b ∈ seq 0 8) as Hin by (apply elem_of_seq; lia).
  revert Hin. generalize (seq 0 8) as l. generalize (Returns (JNum 0)) as acc.
  intros acc l. revert acc.
  induction l as [|r l IH]; intros acc Hin; [by apply elem_of_nil in Hin|].
  cbn [foldl]. apply elem_of_cons in Hin as [<-|Hin].
  - rewrite lookup_ge_None_2 by lia.
    assert (forall l', foldl
              (fun acc r =>
                 match acc with
                 | TypeError => TypeError
                 | Returns value =>
                     match b !! r with
                     | Some row => Returns (row_js row value)
                     | None => TypeError
                     end
                 end) TypeError l' = TypeError) as Hstay
      by (induction l'; simpl; done).
    destruct acc; apply Hstay.
  - by apply IH.
Qed.

Lemma known_not_inherited t : t ∈ known_types -> t ∉ inherited_keys.
Proof.
  unfold known_types. intros Hk.
  repeat (apply elem_of_cons in Hk; destruct Hk as [->|Hk];
          [apply (bool_decide_unpack _); vm_compute; exact I|]).
  by apply elem_of_nil in Hk.
Qed.

Lemma chess_board_plain b : chess_board b -> plain_board b.
Proof.
  intros [_ Hb]. unfold plain_board.
  eapply Forall_impl; [exact Hb|].
  intros [piece|] Hc; simpl in *; [|done].
  destruct Hc as [Hk _]. by apply known_not_inherited.
Qed.

(** On the boards of the rules engine both readings of [evaluateBoard]
    agree. *)
Lemma evaluateBoard_js_chess_board {P : Type} `{Chess P} (chess : P) :
  chess_board (board chess) ->
  evaluateBoard_js chess = Returns (JNum (evaluateBoard chess)).
Proof.
  intros Hb. unfold evaluateBoard_js, evaluateBoard.
  destruct (in_checkmate chess); [by destruct (String.eqb _ _)|].
  destruct (in_draw chess || in_stalemate chess
            || in_threefold_repetition chess); [done|].
  apply material_js_plain; [|by apply chess_board_plain].
  destruct Hb as [[Hlen _] _]. lia.
Qed.

(** ** Doubles *)

Local Open Scope Z_scope.

Lemma round_half_even_near a b :
  0 < b -> 0 <= a ->
  a / b <= round_half_even a b /\
  2 * round_half_even a b * b <= 2 * a + b.
Proof.
  intros Hb Ha. unfold round_half_even.
  pose proof (Z.div_mod a b ltac:(lia)) as Hdm.
  pose proof (Z.mod_pos_bound a b Hb) as Hr.
  destruct (Z.ltb_spec (2 * (a mod b)) b).
  - split; [lia | nia].
  - destruct (Z.ltb_spec b (2 * (a mod b))).
    + split; [lia | nia].
    + destruct (Z.even (a / b)); split; try lia; nia.
Qed.

Lemma shift53_spec a b :
  0 < a -> 0 < b -> a < 2 ^ 52 * b ->
  0 <= shift53 a b /\
  (shift53 a b = 1074 \/ 2 ^ 52 * b <= a * 2 ^ shift53 a b).
Proof.
  intros Ha Hb Hab. unfold shift53.
  pose proof (Z.log2_spec a Ha) as [Hla1 Hla2].
  pose proof (Z.log2_spec b Hb) as [Hlb1 Hlb2].
  pose proof (Z.log2_nonneg a) as Hla0.
  pose proof (Z.log2_nonneg b) as Hlb0.
  set (la := Z.log2 a) in *. set (lb := Z.log2 b) in *.
  assert (la <= 52 + lb) as Hl.
  { apply Z.lt_succ_r. apply (Z.pow_lt_mono_r_iff 2); [lia | lia |].
    replace (Z.succ (52 + lb)) with (52 + Z.succ lb) by lia.
    rewrite Z.pow_add_r by lia. nia. }
  set (k1 := 52 - (la - lb)).
  assert (0 <= k1) as Hk1 by (unfold k1; lia).
  assert (2 ^ 52 * b <= a * 2 ^ (k1 + 1)) as Hup.
  { assert (2 ^ la * 2 ^ (k1 + 1) = 2 ^ 52 * 2 ^ Z.succ lb) as Heq.
    { rewrite <- !Z.pow_add_r by lia. f_equal. unfold k1. lia. }
    pose proof (Z.pow_pos_nonneg 2 (k1 + 1) ltac:(lia) ltac:(lia)).
    nia. }
  destruct (Z.ltb_spec (a * 2 ^ k1) (2 ^ 52 * b)) as [Hlt|Hge].
  - split; [lia|].
    destruct (Z.min_spec (k1 + 1) 1074) as [[_ ->]|[_ ->]]; [by right | by left].
  - split; [lia|].
    destruct (Z.min_spec k1 1074) as [[_ ->]|[_ ->]]; [by right | by left].
Qed.

(** Unless the cap at 1074 digits applies, the scaled value has exactly 53
    bits before rounding. *)
Lemma shift53_upper a b :
  0 < a -> 0 < b -> a < 2 ^ 52 * b ->
  shift53 a b < 1074 ->
  2 ^ 52 * b <= a * 2 ^ shift53 a b /\ a * 2 ^ shift53 a b < 2 ^ 53 * b.
Proof.
  intros Ha Hb Hab Hcap.
  destruct (shift53_spec a b Ha Hb Hab) as [Hk0 [Hk|Hk]]; [lia|].
  split; [exact Hk|]. revert Hcap Hk0 Hk. unfold shift53.
  pose proof (Z.log2_spec a Ha) as [Hla1 Hla2].
  pose proof (Z.log2_spec b Hb) as [Hlb1 Hlb2].
  pose proof (Z.log2_nonneg a) as Hla0.
  pose proof (Z.log2_nonneg b) as Hlb0.
  set (la := Z.log2 a) in *. set (lb := Z.log2 b) in *.
  assert (la <= 52 + lb) as Hl.
  { apply Z.lt_succ_r. apply (Z.pow_lt_mono_r_iff 2); [lia | lia |].
    replace (Z.succ (52 + lb)) with (52 + Z.succ lb) by lia.
    rewrite Z.pow_add_r by lia. nia. }
  set (k1 := 52 - (la - lb)).
  assert (0 <= k1) by (unfold k1; lia).
  destruct (Z.ltb_spec (a * 2 ^ k1) (2 ^ 52 * b)) as [Hlt|Hge];
    intros Hcap Hk0 Hk.
  - rewrite Z.min_l in * by lia.
    rewrite Z.pow_add_r by lia. change (2 ^ 53) with (2 * 2 ^ 52).
    change (2 ^ 1) with 2. nia.
  - rewrite Z.min_l in * by lia.
    assert (2 ^ Z.succ la * 2 ^ k1 = 2 ^ 53 * 2 ^ lb) as Heq.
    { rewrite <- !Z.pow_add_r by lia. f_equal. unfold k1. lia. }
    pose proof (Z.pow_pos_nonneg 2 k1 ltac:(lia) ltac:(lia)).
    nia.
Qed.

Lemma shift53_small a b :
  0 < a -> 0 < b -> a < 4 * b -> 51 <= shift53 a b.
Proof.
  intros Ha Hb Hab. unfold shift53.
  pose proof (Z.log2_spec a Ha) as [Hla1 Hla2].
  pose proof (Z.log2_spec b Hb) as [Hlb1 Hlb2].
  pose proof (Z.log2_nonneg a) as Hla0.
  pose proof (Z.log2_nonneg b) as Hlb0.
  set (la := Z.log2 a) in *. set (lb := Z.log2 b) in *.
  assert (la <= 2 + lb) as Hl.
  { apply Z.lt_succ_r. apply (Z.pow_lt_mono_r_iff 2); [lia | lia |].
    replace (Z.succ (2 + lb)) with (2 + Z.succ lb) by lia.
    rewrite Z.pow_add_r by lia. change (2 ^ 2) with 4. nia. }
  destruct (Z.ltb_spec (a * 2 ^ (52 - (la - lb))) (2 ^ 52 * b)) as [Hlt|Hge].
  - lia.
  - assert (la <> 2 + lb); [|lia].
    intros Heq. replace (52 - (la - lb)) with 50 in Hge by lia.
    change (2 ^ 52) with (4 * 2 ^ 50) in Hge. nia.
Qed.

(** The pair behind [floorProduct]. *)
Lemma floorProduct_unfold u n :
  floorProduct u n
  = Z.to_nat ((round53 (mant u * Z.of_nat n) (2 ^ scale u)).1
              / 2 ^ (round53 (mant u * Z.of_nat n) (2 ^ scale u)).2).
Proof. unfold floorProduct. by destruct (round53 _ _). Qed.

Lemma floorProduct_below u n (z : Z) :
  valid_draw u -> (0 < n)%nat -> Z.of_nat n <= 2 ^ 52 ->
  0 < z ->
  (z = Z.of_nat n \/
   (Z.of_nat n <= 4 /\
    mant u * Z.of_nat n * 2 ^ 50 + 2 ^ scale u <= z * 2 ^ scale u * 2 ^ 50)) ->
  (Z.of_nat (floorProduct u n) < z).
Proof.
  intros [[Hm0 Hm1] [Hs0 Hs1]] Hn Hn52 Hz Hcase.
  rewrite floorProduct_unfold. unfold round53.
  set (a := mant u * Z.of_nat n). set (b := 2 ^ scale u).
  assert (2 ^ 53 <= b) as Hb53 by (apply Z.pow_le_mono_r; lia).
  assert (b <= 2 ^ 1074) as Hb1074 by (apply Z.pow_le_mono_r; lia).
  pose proof (Z.pow_pos_nonneg 2 53 ltac:(lia) ltac:(lia)) as H253.
  destruct (Z.leb_spec a 0) as [Ha0|Ha0]; simpl.
  { rewrite Z.div_0_l by lia. simpl. lia. }
  assert (0 < mant u) as Hmpos by (unfold a in Ha0; nia).
  assert (a < Z.of_nat n * b) as Hab by (unfold a; nia).
  assert (a < 2 ^ 52 * b) as Hab52 by nia.
  destruct (shift53_spec a b Ha0 ltac:(lia) Hab52) as [Hk0 Hk].
  set (k := shift53 a b) in *.
  pose proof (Z.pow_pos_nonneg 2 k ltac:(lia) Hk0) as HX.
  set (X := 2 ^ k) in *.
  destruct (round_half_even_near (a * X) b ltac:(lia) ltac:(nia)) as [Hlo Hhi].
  set (m := round_half_even (a * X) b) in *.
  assert (0 <= m).
  { etransitivity; [|exact Hlo]. apply Z.div_pos; nia. }
  rewrite Z2Nat.id by (apply Z.div_pos; lia).
  apply Z.div_lt_upper_bound; [lia|].
  destruct (Z.lt_ge_cases m (X * z)) as [|Hge]; [done|]. exfalso.
  assert (2 * X * (z * b - a) <= b) as Hcontra by nia.
  destruct Hcase as [->|[Hn4 Hmargin]].
  - (* z = n: the draw is below 1 *)
    assert (Z.of_nat n * b - a = Z.of_nat n * (b - mant u)) as Hd
      by (unfold a; lia).
    rewrite Hd in Hcontra.
    destruct Hk as [Hk|Hk].
    + assert (b <= X) by (unfold X; rewrite Hk; exact Hb1074). nia.
    + assert (2 * (a * X) * (b - mant u) <= b * mant u) as H1.
      { replace (2 * (a * X) * (b - mant u))
          with (2 * X * (Z.of_nat n * (b - mant u)) * mant u)
          by (unfold a; ring).
        nia. }
      assert (2 ^ 53 * b * (b - mant u) <= b * mant u) as H2.
      { change (2 ^ 53) with (2 * 2 ^ 52).
        etransitivity; [|exact H1].
        replace (2 * 2 ^ 52 * b * (b - mant u))
          with (2 * (2 ^ 52 * b) * (b - mant u)) by ring.
        apply Z.mul_le_mono_nonneg_r; [lia|]. lia. }
      nia.
  - (* a margin of 2^-50 below z *)
    assert (51 <= k) as Hk51 by (apply shift53_small; [lia | lia | nia]).
    assert (2 ^ 51 <= X) as HX51 by (apply Z.pow_le_mono_r; lia).
    change (2 ^ 51) with (2 * 2 ^ 50) in HX51.
    pose proof (Z.pow_pos_nonneg 2 50 ltac:(lia) ltac:(lia)) as H250.
    set (D := z * b - a) in *.
    assert (b <= D * 2 ^ 50) as HD by (unfold D; lia).
    assert (0 < D) by nia.
    nia.
Qed.

Lemma floorProduct_above u n :
  valid_draw u -> Z.of_nat n <= 2 ^ 52 ->
  (mant u * Z.of_nat n) / 2 ^ scale u <= Z.of_nat (floorProduct u n).
Proof.
  intros [[Hm0 Hm1] [Hs0 Hs1]] Hn52.
  rewrite floorProduct_unfold. unfold round53.
  set (a := mant u * Z.of_nat n). set (b := 2 ^ scale u).
  assert (2 ^ 53 <= b) as Hb53 by (apply Z.pow_le_mono_r; lia).
  pose proof (Z.pow_pos_nonneg 2 53 ltac:(lia) ltac:(lia)) as H253.
  destruct (Z.leb_spec a 0) as [Ha0|Ha0]; simpl.
  { assert (a = 0) as -> by (unfold a in *; nia).
    rewrite !Z.div_0_l by lia. simpl. lia. }
  assert (a < 2 ^ 52 * b) as Hab52 by (unfold a; nia).
  destruct (shift53_spec a b Ha0 ltac:(lia) Hab52) as [Hk0 _].
  set (k := shift53 a b) in *.
  pose proof (Z.pow_pos_nonneg 2 k ltac:(lia) Hk0) as HX.
  set (X := 2 ^ k) in *.
  destruct (round_half_even_near (a * X) b ltac:(lia) ltac:(nia)) as [Hlo _].
  set (m := round_half_even (a * X) b) in *.
  assert (0 <= a / b) by (apply Z.div_pos; lia).
  assert (a / b * X <= a * X / b) as H1.
  { apply Z.div_le_lower_bound; [lia|].
    pose proof (Z.mul_div_le a b ltac:(lia)). nia. }
  assert (a / b <= m / X) as H2.
  { apply Z.div_le_lower_bound; [lia|]. lia. }
  rewrite Z2Nat.id by lia. exact H2.
Qed.

Lemma draw_den u : valid_draw u -> Z.pos (Z.to_pos (2 ^ scale u)) = 2 ^ scale u.
Proof.
  intros [_ [Hs _]]. apply Z2Pos.id. apply Z.pow_pos_nonneg; lia.
Qed.

Lemma draw_product_ge u (n : nat) z :
  valid_draw u ->
  (inject_Z z <= draw_value u * inject_Z (Z.of_nat n))%Q
  <-> z * 2 ^ scale u <= mant u * Z.of_nat n.
Proof.
  intros Hu. unfold Qle, Qmult, inject_Z, draw_value. cbn [Qnum Qden].
  rewrite Pos.mul_1_r, (draw_den u Hu). lia.
Qed.

Lemma draw_product_lt u (n : nat) z :
  valid_draw u ->
  (draw_value u * inject_Z (Z.of_nat n) < inject_Z z)%Q
  <-> mant u * Z.of_nat n < z * 2 ^ scale u.
Proof.
  intros Hu. unfold Qlt, Qmult, inject_Z, draw_value. cbn [Qnum Qden].
  rewrite Pos.mul_1_r, (draw_den u Hu). lia.
Qed.

Lemma draw_product_margin u (n : nat) z :
  valid_draw u ->
  (draw_value u * inject_Z (Z.of_nat n) <= inject_Z z - (1 # 2 ^ 50))%Q
  <-> mant u * Z.of_nat n * 2 ^ 50 + 2 ^ scale u <= z * 2 ^ scale u * 2 ^ 50.
Proof.
  intros Hu. unfold Qle, Qmult, Qminus, Qplus, Qopp, inject_Z, draw_value.
  cbn [Qnum Qden].
  rewrite !Pos.mul_1_r, !Pos.mul_1_l, (draw_den u Hu).
  change (Z.pos (2 ^ 50)) with (2 ^ 50). lia.
Qed.

Lemma draw_value_range u : valid_draw u -> (0 <= draw_value u)%Q /\ (draw_value u < 1)%Q.
Proof.
  intros Hu. pose proof Hu as [[Hm0 Hm1] [Hs0 Hs1]].
  unfold Qle, Qlt, draw_value. cbn [Qnum Qden]. rewrite (draw_den u Hu).
  assert (2 ^ 53 <= 2 ^ scale u) by (apply Z.pow_le_mono_r; lia).
  lia.
Qed.

(** The index of the blunder branch against the exact product. *)
Lemma floorProduct_slices u (n j : nat) :
  valid_draw u -> (0 < n <= 4)%nat ->
  (floorProduct u n < n)%nat /\
  ((inject_Z (Z.of_nat j) <= draw_value u * inject_Z (Z.of_nat n)
    /\ draw_value u * inject_Z (Z.of_nat n)
       <= inject_Z (Z.of_nat j + 1) - (1 # 2 ^ 50))%Q ->
   floorProduct u n = j) /\
  (floorProduct u n = j ->
   (inject_Z (Z.of_nat j) - (1 # 2 ^ 50)
    < draw_value u * inject_Z (Z.of_nat n)
    /\ draw_value u * inject_Z (Z.of_nat n) < inject_Z (Z.of_nat j + 1))%Q).
Proof.
  intros Hu [Hn0 Hn4].
  assert (Z.of_nat n <= 2 ^ 52) as Hn52.
  { change (2 ^ 52) with 4503599627370496. lia. }
  pose proof Hu as [[Hm0 Hm1] [Hs0 Hs1]].
  pose proof (Z.pow_pos_nonneg 2 (scale u) ltac:(lia) ltac:(lia)) as Hb.
  pose proof (floorProduct_above u n Hu Hn52) as Habove.
  assert (Z.of_nat n <= 4) as Hn4z by lia.
  split; [|split].
  - pose proof (floorProduct_below u n (Z.of_nat n) Hu Hn0 Hn52
                  ltac:(lia) (or_introl eq_refl)). lia.
  - intros [Hlo Hhi].
    apply draw_product_ge in Hlo; [|done].
    apply draw_product_margin in Hhi; [|done].
    pose proof (floorProduct_below u n (Z.of_nat j + 1) Hu Hn0 Hn52
                  ltac:(lia) (or_intror (conj Hn4z Hhi))).
    assert (Z.of_nat j <= mant u * Z.of_nat n / 2 ^ scale u)
      by (apply Z.div_le_lower_bound; lia).
    lia.
  - intros <-. split.
    + apply Qnot_le_lt. intros Hle.
      destruct (floorProduct u n) as [|i] eqn:Hi.
      * assert (0 <= draw_value u * inject_Z (Z.of_nat n))%Q as H0
          by (apply (draw_product_ge u n 0 Hu); nia).
        assert (inject_Z (Z.of_nat 0) - (1 # 2 ^ 50) < 0)%Q by done.
        eapply Qlt_irrefl, Qlt_le_trans; [exact H|].
        eapply Qle_trans; [exact H0 | exact Hle].
      * apply draw_product_margin in Hle; [|done].
        pose proof (floorProduct_below u n (Z.of_nat (S i)) Hu Hn0 Hn52
                      ltac:(lia) (or_intror (conj Hn4z Hle))).
        lia.
    + apply draw_product_lt; [done|].
      pose proof (Z.div_mod (mant u * Z.of_nat n) (2 ^ scale u) ltac:(lia)).
      pose proof (Z.mod_pos_bound (mant u * Z.of_nat n) (2 ^ scale u) Hb).
      nia.
Qed.

Local Close Scope Z_scope.

(** The function on doubles is the exact one wherever the blunder test and
    the two floors come out the same. *)
Lemma makeAIMove_double_exact {P : Type} `{Chess P}
    (game : P) (elo : Z) (aiSide : string) (u1 u2 : Draw) :
  Qltb (draw_value u1) (double_of_literal (randomness (eloToParams elo)))
  = Qltb (draw_value u1) (randomness (eloToParams elo)) ->
  (forall n, floorProduct u1 n = randomIndex (draw_value u1) n) ->
  (forall n, floorProduct u2 n = randomIndex (draw_value u2) n) ->
  makeAIMove_double game elo aiSide u1 u2
  = makeAIMove game elo aiSide (draw_value u1) (draw_value u2).
Proof.
  intros Htest Hu1 Hu2. unfold makeAIMove_double, makeAIMove.
  destruct (game_over game); [done|].
  destruct (length (moves game) =? 0)%nat; [done|].
  destruct (getBestMove _ _ _) as [best g1].
  destruct (usable_move best); [|by rewrite Hu1].
  rewrite Htest.
  destruct (Qltb (draw_value u1) (randomness (eloToParams elo))); [|done].
  destruct (shallow_loop _ _ _ _) as [scored g2]. by rewrite Hu2.
Qed.

(** * The claims *)

(** C3. [evaluateBoard] returns +999999 for a checkmate with Black to move,
    -999999 for a checkmate with White to move, 0 for a position that is
    not checkmate and is drawn, stalemated or a threefold repetition, and
    otherwise (on a board as chess.js produces it) the sum over all pieces of
    the fixed material values, added for White and subtracted for Black.
    The cases are read in the order in which they are listed. *)
Theorem C3_evaluateBoard_cases {P : Type} `{Chess P} (chess : P) :
  (in_checkmate chess = true -> turn chess = "b" ->
   evaluateBoard chess = 999999%Z) /\
  (in_checkmate chess = true -> turn chess = "w" ->
   evaluateBoard chess = (-999999)%Z) /\
  (in_checkmate chess = false ->
   in_draw chess = true \/ in_stalemate chess = true
   \/ in_threefold_repetition chess = true ->
   evaluateBoard chess = 0%Z) /\
  (in_checkmate chess = false -> in_draw chess = false ->
   in_stalemate chess = false -> in_threefold_repetition chess = false ->
   chess_board (board chess) ->
   evaluateBoard chess = spec_material (board chess)).
Proof.
  unfold evaluateBoard. repeat split.
  - intros -> ->. reflexivity.
  - intros -> ->. reflexivity.
  - intros -> [->|[->| ->]]; simpl; [done| |].
    + by rewrite orb_true_r.
    + by rewrite orb_true_r.
  - intros -> -> -> -> Hb. simpl. by apply material_chess_board.
Qed.

Lemma C3_evaluateBoard_cases_witness :
  evaluateBoard (start Samples.mated_black) = 999999%Z /\
  evaluateBoard (start Samples.mated_white) = (-999999)%Z /\
  evaluateBoard (start Samples.stalemated) = 0%Z /\
  evaluateBoard (start Samples.opening) = spec_material Samples.start_board.
Proof.
  split; [|split; [|split]].
  - apply (proj1 (C3_evaluateBoard_cases (start Samples.mated_black)));
      reflexivity.
  - apply (proj1 (proj2 (C3_evaluateBoard_cases (start Samples.mated_white))));
      reflexivity.
  - apply (proj1 (proj2 (proj2
             (C3_evaluateBoard_cases (start Samples.stalemated)))));
      [reflexivity | left; reflexivity].
  - change Samples.start_board with (board (start Samples.opening)).
    apply (proj2 (proj2 (proj2
             (C3_evaluateBoard_cases (start Samples.opening)))));
      try reflexivity.
    apply (bool_decide_unpack _). vm_compute. exact I.
Defined.

(** C10 (amended).  A piece whose type is neither one of p, n, b, r, q, k
    nor the name of a property inherited from [Object.prototype]
    contributes exactly 0 to the material sum.  On a board of at least eight
    rows without such inherited names, so on every board of the rules
    engine, the material branch of [evaluateBoard] returns an integer, the
    sum over the pieces of known type.  A board with fewer than eight rows
    raises a TypeError. *)
Theorem C10_unknown_piece_counts_zero :
  (forall (piece : Piece) (a : Z),
     type piece ∉ known_types -> type piece ∉ inherited_keys ->
     add_js (JNum a) (summand_js piece) = JNum a) /\
  (forall b : Board,
     (8 <= length b)%nat -> plain_board b ->
     material_js b = Returns (JNum (material (erase_unknown b)))) /\
  (forall (P : Type) (H : Chess P) (chess : P),
     in_checkmate chess = false -> in_draw chess = false ->
     in_stalemate chess = false -> in_threefold_repetition chess = false ->
     (8 <= length (board chess))%nat -> plain_board (board chess) ->
     evaluateBoard_js chess
     = Returns (JNum (material (erase_unknown (board chess))))) /\
  (forall b : Board, (length b < 8)%nat -> material_js b = TypeError).
Proof.
  split; [|split; [|split]].
  - intros piece a Hn Hp. rewrite (add_js_plain a piece Hp).
    unfold cellValue. rewrite (valueOf_unknown _ Hn).
    destruct (String.eqb _ _); f_equal; lia.
  - intros b Hlen Hb.
    by rewrite (material_js_plain b Hlen Hb), material_erase_unknown.
  - intros P H chess Hm Hd Hs Hr Hlen Hb. unfold evaluateBoard_js.
    rewrite Hm, Hd, Hs, Hr. simpl.
    by rewrite (material_js_plain _ Hlen Hb), material_erase_unknown.
  - apply material_js_missing_row.
Qed.

Lemma C10_unknown_piece_counts_zero_witness :
  add_js (JNum 400) (summand_js {| type := "z"; color := "b" |}) = JNum 400 /\
  material_js Samples.with_stranger
  = Returns (JNum (material (erase_unknown Samples.with_stranger))) /\
  material_js [[]; []; []] = TypeError.
Proof.
  destruct C10_unknown_piece_counts_zero as (Hpiece & Hboard & _ & Hrows).
  split; [|split].
  - apply Hpiece; apply (bool_decide_unpack _); vm_compute; exact I.
  - apply Hboard; [vm_compute; lia|].
    apply (bool_decide_unpack _). vm_compute. exact I.
  - apply Hrows. simpl. lia.
Defined.

(** C10 as stated fails: a black piece of type [constructor], which is not
    one of the six known types, does not contribute 0.  The lookup finds the
    inherited [Object] function, its negation is NaN, and the material
    branch returns NaN; a white piece of type [toString] turns the sum into a
    string. *)
Lemma C10_counterexample :
  ("constructor" ∉ known_types) /\
  add_js (JNum 0) (summand_js {| type := "constructor"; color := "b" |}) = JNaN /\
  material_js Captures.with_constructor = Returns JNaN /\
  evaluateBoard_js
    (start (Samples.pos "" "w" Captures.with_constructor [])) = Returns JNaN /\
  material_js Captures.with_toString = Returns JStr.
Proof.
  split; [apply (bool_decide_unpack _); vm_compute; exact I|].
  repeat split; vm_compute; reflexivity.
Qed.

(** C4. [eloToParams] is a total function on the integers that returns
    (1, 0.70) below 900, (2, 0.50) on [900, 1100), (2, 0.35) on [1100, 1400),
    (3, 0.20) on [1400, 1700), (4, 0.12) on [1700, 2000), (5, 0.06) on
    [2000, 2300) and (6, 0.02) from 2300 on; as elo grows the depth never
    decreases and the blunder probability never increases. *)
Theorem C4_eloToParams_bands :
  (forall elo : Z,
     let params := eloToParams elo in
     ((elo < 900)%Z -> depth params = 1%nat /\ (randomness params == 0.70)%Q) /\
     ((900 <= elo < 1100)%Z -> depth params = 2%nat /\ (randomness params == 0.50)%Q) /\
     ((1100 <= elo < 1400)%Z -> depth params = 2%nat /\ (randomness params == 0.35)%Q) /\
     ((1400 <= elo < 1700)%Z -> depth params = 3%nat /\ (randomness params == 0.20)%Q) /\
     ((1700 <= elo < 2000)%Z -> depth params = 4%nat /\ (randomness params == 0.12)%Q) /\
     ((2000 <= elo < 2300)%Z -> depth params = 5%nat /\ (randomness params == 0.06)%Q) /\
     ((2300 <= elo)%Z -> depth params = 6%nat /\ (randomness params == 0.02)%Q)) /\
  (forall elo1 elo2 : Z,
     (elo1 <= elo2)%Z ->
     (depth (eloToParams elo1) <= depth (eloToParams elo2))%nat /\
     (randomness (eloToParams elo2) <= randomness (eloToParams elo1))%Q).
Proof.
  split.
  - intros elo. unfold eloToParams. cbv zeta.
    repeat match goal with
           | |- context [(?x <? ?y)%Z] => destruct (Z.ltb_spec x y)
           end;
      repeat split; intros; try lia; reflexivity.
  - intros elo1 elo2 Hle. unfold eloToParams.
    repeat match goal with
           | |- context [(?x <? ?y)%Z] => destruct (Z.ltb_spec x y)
           end;
      try lia; split; simpl; try lia; unfold Qle; simpl; lia.
Qed.

Lemma C4_eloToParams_bands_witness :
  (depth (eloToParams 500) = 1%nat /\ (randomness (eloToParams 500) == 0.70)%Q) /\
  (depth (eloToParams 2500) = 6%nat /\ (randomness (eloToParams 2500) == 0.02)%Q) /\
  (depth (eloToParams 900) <= depth (eloToParams 1399))%nat /\
  (randomness (eloToParams 1399) <= randomness (eloToParams 900))%Q.
Proof.
  split; [|split].
  - apply (proj1 (proj1 C4_eloToParams_bands 500%Z)). lia.
  - apply (proj2 (proj2 (proj2 (proj2 (proj2 (proj2
             (proj1 C4_eloToParams_bands 2500%Z))))))). lia.
  - apply (proj2 C4_eloToParams_bands 900%Z 1399%Z). lia.
Defined.

(** C8. [orderMoves] returns a permutation of its input in which every move
    containing the capture marker comes before every move without it, and
    the moves of each of the two groups keep their relative order. *)
Theorem C8_orderMoves_stable_captures_first (l : list string) :
  orderMoves l ≡ₚ l /\
  (forall i j a b,
     orderMoves l !! i = Some a -> orderMoves l !! j = Some b ->
     includes_x a = true -> includes_x b = false -> (i < j)%nat) /\
  List.filter includes_x (orderMoves l) = List.filter includes_x l /\
  List.filter (fun m => negb (includes_x m)) (orderMoves l)
  = List.filter (fun m => negb (includes_x m)) l.
Proof.
  split; [apply js_sort_perm|].
  rewrite orderMoves_partition.
  set (caps := List.filter includes_x l).
  set (quiet := List.filter (fun m => negb (includes_x m)) l).
  assert (Forall (fun m => includes_x m = true) caps) as Hcaps
    by apply Forall_filter_true.
  assert (Forall (fun m => includes_x m = false) quiet) as Hquiet
    by apply Forall_filter_false.
  split; [|split].
  - intros i j a b Hi Hj Ha Hb.
    destruct (decide (i < length caps)%nat) as [Hlt|Hge].
    + destruct (decide (j < length caps)%nat) as [Hj'|Hj']; [|lia].
      rewrite lookup_app_l in Hj by done.
      pose proof (Forall_lookup_1 _ _ _ _ Hcaps Hj) as Hb'. simpl in Hb'.
      congruence.
    + rewrite lookup_app_r in Hi by lia.
      pose proof (Forall_lookup_1 _ _ _ _ Hquiet Hi) as Ha'. simpl in Ha'.
      congruence.
  - by apply filter_app_id.
  - rewrite List.filter_app.
    replace (List.filter (fun m => negb (includes_x m)) caps) with (@nil string).
    + simpl. clear -Hquiet.
      induction Hquiet as [|x q Hx _ IH]; simpl; [done|]. by rewrite Hx, IH.
    + clear -Hcaps.
      induction Hcaps as [|x c Hx _ IH]; simpl; [done|]. by rewrite Hx.
Qed.

(** C1 (the code differs).  The recursive call of [negamax] passes
    [perspectiveColor] on unchanged instead of the opposite colour.  With
    Black to move after [Qd5] and free to take the queen, the code at depth 1
    from Black's perspective returns 400, the value of the reply that keeps
    White's queen on the board, where the alternating recursion of the spec
    returns 500; through it [getBestMove] at depth 2 plays [Qd5], which
    hangs the queen, although [Qd1] keeps it. *)
Theorem C1_negamax_keeps_perspective :
  (negamax 1 (start Samples.after_Qd5) NegInf PosInf "b").1 = Fin 400 /\
  (negamax_alternating 1 (start Samples.after_Qd5) NegInf PosInf "b").1
  = Fin 500 /\
  (getBestMove (start Samples.middlegame) 2 "w").1
  = Some {| result_move := Some "Qd5"; result_score := Fin (-400) |}.
Proof. repeat split; vm_compute; reflexivity. Qed.

(** C2. For every position, depth and perspective, the score returned by
    [negamax] on the full window, as [getBestMove] calls it, is the score of
    the full-width negamax over the same tree, leaves and move order.  On a
    narrower window [alpha < beta] the returned score is the full-width score
    whenever it lies inside the window, and a bound on it on the side where
    it falls outside. *)
Theorem C2_alpha_beta_equals_full_width {P : Type} `{Chess P} :
  undo_restores ->
  forall (depth : nat) (chess : P) (perspectiveColor : string),
    (negamax depth chess NegInf PosInf perspectiveColor).1
    = negamax_full depth chess perspectiveColor /\
    (forall alpha beta : Score,
       slt alpha beta ->
       Bound alpha beta (negamax depth chess alpha beta perspectiveColor).1
             (negamax_full depth chess perspectiveColor)).
Proof.
  intros Hundo depth chess p. split.
  - apply Bound_full_window. by apply negamax_sound.
  - intros alpha beta Hwin. by apply negamax_sound.
Qed.

Lemma C2_alpha_beta_equals_full_width_witness :
  (negamax 2 (start Samples.with_cutoff) NegInf PosInf "w").1
  = negamax_full 2 (start Samples.with_cutoff) "w".
Proof.
  apply (proj1 (C2_alpha_beta_equals_full_width toy_undo_restores
                  2%nat (start Samples.with_cutoff) "w")).
Defined.

(** C5. When the rules engine's [undo] reverts a legal move, the object is
    the same after [getBestMove] as before it, and the same after every call
    of [negamax], for every window, so also when a node is left through the
    cutoff. *)
Theorem C5_search_restores_position {P : Type} `{Chess P} :
  undo_restores ->
  forall (chess : P),
    (forall (d : nat) (aiColor : string),
       (getBestMove chess (S d) aiColor).2 = chess) /\
    (forall (depth : nat) (alpha beta : Score) (perspectiveColor : string),
       (negamax depth chess alpha beta perspectiveColor).2 = chess).
Proof.
  intros Hundo chess. split.
  - intros d aiColor. by apply getBestMove_restores.
  - intros depth alpha beta p. by apply negamax_restores.
Qed.

Lemma C5_search_restores_position_witness :
  (getBestMove (start Samples.with_cutoff) 2 "w").2 = start Samples.with_cutoff /\
  (negamax 1 (toy_move (start Samples.with_cutoff) "Qd5") NegInf (Fin (-400)) "w").2
  = toy_move (start Samples.with_cutoff) "Qd5".
Proof.
  split.
  - apply (proj1 (C5_search_restores_position toy_undo_restores
                    (start Samples.with_cutoff))).
  - apply (proj2 (C5_search_restores_position toy_undo_restores
                    (toy_move (start Samples.with_cutoff) "Qd5"))).
Defined.

(** C9. When [negamax] is called with depth > 0 on a position that is not
    reported as over but has no legal moves, the loop does not run and the
    result is -Infinity with the object untouched; a parent whose only move
    leads there negates it and returns +Infinity. *)
Theorem C9_stuck_position_returns_NegInf {P : Type} `{Chess P}
    (chess : P) (d : nat) (alpha beta : Score) (perspectiveColor : string) :
  game_over chess = false ->
  moves chess = [] ->
  negamax (S d) chess alpha beta perspectiveColor = (NegInf, chess) /\
  sneg (negamax (S d) chess alpha beta perspectiveColor).1 = PosInf /\
  (forall (parent : P) (mv : string) (a b : Score),
     game_over parent = false -> moves parent = [mv] ->
     move parent mv = chess ->
     (negamax (S (S d)) parent a b perspectiveColor).1 = PosInf).
Proof.
  intros Hover Hmoves.
  assert (forall a b, negamax (S d) chess a b perspectiveColor = (NegInf, chess))
    as Hstuck.
  { intros a b. simpl. by rewrite Hover, Hmoves. }
  split; [apply Hstuck|]. split; [by rewrite Hstuck|].
  intros parent mv a b Hpo Hpm Hmv.
  change (negamax (S (S d)) parent a b perspectiveColor)
    with (if game_over parent
          then (leafScore parent perspectiveColor, parent)
          else negamax_loop
                 (fun c a b => negamax (S d) c a b perspectiveColor)
                 (js_sort captureFirst (moves parent)) parent a b NegInf).
  rewrite Hpo, Hpm. cbn [js_sort js_insert negamax_loop].
  rewrite Hmv, Hstuck. cbn [sneg sgtb sltb].
  by repeat match goal with |- context [if ?c then _ else _] => destruct c end.
Qed.

Lemma C9_stuck_position_returns_NegInf_witness :
  negamax 1 false (Fin (-5)) (Fin 7) "w" = (NegInf, false) /\
  sneg (negamax 1 false (Fin (-5)) (Fin 7) "w").1 = PosInf /\
  (negamax 2 true NegInf PosInf "w").1 = PosInf.
Proof.
  destruct (C9_stuck_position_returns_NegInf (H := stuck_chess)
              false 0 (Fin (-5)) (Fin 7) "w" eq_refl eq_refl) as (H1 & H2 & H3).
  split; [exact H1|]. split; [exact H2|].
  exact (H3 true "Kh1" NegInf PosInf eq_refl eq_refl eq_refl).
Defined.

(** C6. On a position without legal moves [getBestMove] returns [null] at
    once, and [makeAIMove] plays nothing.  When there are legal moves, and
    the rules engine reports every position without moves as over, the
    result carries a move, and that move is one of the legal moves.  So the
    selected move is none exactly when there is no legal move. *)
Theorem C6_no_move_iff_no_legal_move {P : Type} `{Chess P}
    (chess : P) (d : nat) (aiColor : string) :
  (moves chess = [] ->
   getBestMove chess (S d) aiColor = (None, chess) /\
   forall elo aiSide u1 u2,
     makeAIMove chess elo aiSide u1 u2 = (None, chess)) /\
  (stuck_is_over -> moves chess <> [] ->
   exists (mv : string) (score : Score),
     (getBestMove chess (S d) aiColor).1
     = Some {| result_move := Some mv; result_score := score |}
     /\ mv ∈ moves chess) /\
  (stuck_is_over ->
   ((getBestMove chess (S d) aiColor).1 ≫= result_move) = None
   <-> moves chess = []).
Proof.
  assert (moves chess = [] -> getBestMove chess (S d) aiColor = (None, chess))
    as Hnone.
  { intros Hm. unfold getBestMove. by rewrite Hm. }
  assert (stuck_is_over -> moves chess <> [] ->
          exists (mv : string) (score : Score),
            (getBestMove chess (S d) aiColor).1
            = Some {| result_move := Some mv; result_score := score |}
            /\ mv ∈ moves chess) as Hsome.
  { intros Hstuck Hm. unfold getBestMove.
    destruct (moves chess) as [|m0 ms] eqn:Hmoves; [done|].
    cbn [length Nat.eqb].
    rewrite <- Hmoves.
    assert (orderMoves (moves chess) <> []) as Hord.
    { intros Hnil. apply (f_equal length) in Hnil.
      unfold orderMoves in Hnil. rewrite js_sort_length, Hmoves in Hnil.
      done. }
    pose proof (getBestMove_loop_some Hstuck (S d) aiColor
                  (orderMoves (moves chess)) chess None NegInf
                  (fun _ => eq_refl) (or_introl Hord)) as Hnn.
    pose proof (getBestMove_loop_member (S d) aiColor
                  (orderMoves (moves chess)) chess None NegInf) as Hmem.
    destruct (getBestMove_loop _ _ _ _ _ _) as [[bm bs] c']. simpl in *.
    destruct Hmem as [->|(mv & -> & Hin)]; [done|].
    exists mv, bs. split; [done|].
    by apply js_sort_elem in Hin. }
  split; [|split].
  - intros Hm. split; [by apply Hnone|].
    intros elo aiSide u1 u2. unfold makeAIMove. rewrite Hm. simpl.
    by destruct (game_over chess).
  - exact Hsome.
  - intros Hstuck. split.
    + intros Hsel. destruct (decide (moves chess = [])) as [|Hne]; [done|].
      destruct (Hsome Hstuck Hne) as (mv & score & Hr & _).
      rewrite Hr in Hsel. done.
    + intros Hm. by rewrite (Hnone Hm).
Qed.

Lemma C6_no_move_iff_no_legal_move_witness :
  getBestMove (start Samples.mated_white) 2 "w"
  = (None, start Samples.mated_white) /\
  exists (mv : string) (score : Score),
    (getBestMove (start Samples.middlegame) 2 "w").1
    = Some {| result_move := Some mv; result_score := score |}
    /\ mv ∈ moves (start Samples.middlegame).
Proof.
  split.
  - apply (proj1 (C6_no_move_iff_no_legal_move
                    (start Samples.mated_white) 1 "w")).
    reflexivity.
  - apply (proj1 (proj2 (C6_no_move_iff_no_legal_move
                           (start Samples.middlegame) 1 "w"))).
    + exact toy_stuck_is_over.
    + discriminate.
Defined.

Lemma StronglySorted_lookup_lt {A} (R : A -> A -> Prop) l i j a b :
  StronglySorted R l -> (i < j)%nat ->
  l !! i = Some a -> l !! j = Some b -> R a b.
Proof.
  intros Hs. revert i j.
  induction Hs as [|x l _ IH Hx]; intros i j Hij Hi Hj; [done|].
  destruct j as [|j]; [lia|]. simpl in Hj.
  destruct i as [|i]; simpl in Hi.
  - injection Hi as ->. exact (Forall_lookup_1 _ _ _ _ Hx Hj).
  - apply (IH i j); [lia | done | done].
Qed.

(** C7.  In the blunder branch (a usable best move was found and the draw
    [u1] is below the double of the blunder probability) the move played is
    entry [Math.floor(u2 * min(4, count))] of the legal moves ranked in
    descending order of their one-ply score, the evaluation after the move
    seen from the AI colour.  That index is below [min(4, count)]; entry [j]
    is chosen when the exact product lies between [j] and [j + 1], up to the
    rounding of the product (less than [2^-50]), so each entry has a slice of
    [0, 1) of the same length up to that rounding; and no move ranked after
    these entries scores higher than the one played. *)
Theorem C7_blunder_plays_one_of_top_four {P : Type} `{Chess P}
    (game : P) (elo : Z) (aiSide : string) (u1 u2 : Draw) (bestMove : string) :
  undo_restores ->
  game_over game = false ->
  usable_move
    (getBestMove game (depth (eloToParams elo))
                 (if String.eqb aiSide "white" then "w" else "b")).1
  = Some bestMove ->
  (draw_value u1 < double_of_literal (randomness (eloToParams elo)))%Q ->
  valid_draw u2 ->
  let perspective := if String.eqb aiSide "white" then "w" else "b" in
  let scored := shallow_score perspective game <$> moves game in
  let ranking := js_sort byScoreDesc scored in
  let n := Nat.min 4 (length (moves game)) in
  let i := floorProduct u2 n in
  let product := (draw_value u2 * inject_Z (Z.of_nat n))%Q in
  (i < n)%nat /\
  (forall j : nat,
     ((inject_Z (Z.of_nat j) <= product
       /\ product <= inject_Z (Z.of_nat j + 1) - (1 # 2 ^ 50))%Q -> i = j) /\
     (i = j ->
      (inject_Z (Z.of_nat j) - (1 # 2 ^ 50) < product
       /\ product < inject_Z (Z.of_nat j + 1))%Q)) /\
  ranking ≡ₚ scored /\
  StronglySorted (fun a b : string * Z => (b.2 <= a.2)%Z) ranking /\
  exists pick : string * Z,
    ranking !! i = Some pick /\
    pick.1 ∈ moves game /\
    pick.2 = (evaluateBoard (move game pick.1)
              * (if String.eqb perspective "w" then 1 else -1))%Z /\
    (forall q, q ∈ drop n ranking -> (q.2 <= pick.2)%Z) /\
    makeAIMove_double game elo aiSide u1 u2 = (Some pick.1, move game pick.1).
Proof.
  intros Hundo Hover Hbest Hu1 Hu2 perspective scored ranking n i product.
  assert (moves game <> []) as Hne.
  { intros Hnil. unfold getBestMove in Hbest. by rewrite Hnil in Hbest. }
  assert (0 < length (moves game))%nat as Hlen
    by (destruct (moves game); [done | simpl; lia]).
  assert (length ranking = length (moves game)) as Hrank_len.
  { unfold ranking, scored. by rewrite js_sort_length, length_fmap. }
  assert (0 < n <= 4)%nat as Hn by (unfold n; lia).
  assert (i < n)%nat as Hi by (apply (floorProduct_slices u2 n 0 Hu2 Hn)).
  assert (StronglySorted (fun a b : string * Z => (b.2 <= a.2)%Z) ranking)
    as Hsorted by apply js_sort_desc.
  destruct (lookup_lt_is_Some_2 ranking i) as [pick Hpick]; [lia|].
  assert (pick ∈ scored) as Hscored.
  { rewrite <- (js_sort_elem byScoreDesc). apply list_elem_of_lookup. eauto. }
  apply list_elem_of_fmap in Hscored as (mv & -> & Hmv).
  split; [exact Hi|].
  split; [|split; [apply js_sort_perm|split; [exact Hsorted|]]].
  { intros j. apply (floorProduct_slices u2 n j Hu2 Hn). }
  exists (shallow_score perspective game mv).
  split; [exact Hpick|]. split; [exact Hmv|]. split; [reflexivity|]. split.
  - intros q Hq. apply list_elem_of_lookup in Hq as [k Hk].
    rewrite lookup_drop in Hk.
    apply (StronglySorted_lookup_lt _ _ i (n + k) _ _ Hsorted); [lia|done|done].
  - unfold makeAIMove_double. rewrite Hover.
    destruct (length (moves game)) as [|len] eqn:Hl; [lia|]. cbn [Nat.eqb].
    pose proof (getBestMove_restores Hundo game (depth (eloToParams elo))
                  (if String.eqb aiSide "white" then "w" else "b")) as Hr.
    destruct (getBestMove _ _ _) as [best g1]. simpl in Hr, Hbest. subst g1.
    rewrite Hbest.
    assert (Qltb (draw_value u1)
                 (double_of_literal (randomness (eloToParams elo))) = true)
      as ->.
    { unfold Qltb. apply negb_true_iff. apply not_true_is_false.
      rewrite Qle_bool_iff. by apply Qlt_not_le. }
    rewrite shallow_loop_spec by (intros m Hm; by apply Hundo).
    cbn [app].
    fold perspective. fold scored. fold ranking.
    replace (Nat.min (Nat.min 4 (S len)) (length scored)) with n.
    + fold i. by rewrite Hpick.
    + unfold n, scored. rewrite length_fmap, Hl. lia.
Qed.

Lemma C7_blunder_plays_one_of_top_four_witness :
  makeAIMove_double (start Captures.six_moves) 500 "white"
    Captures.half Captures.two_thirds
  = (Some "Qxb8", move (start Captures.six_moves) "Qxb8").
Proof.
  destruct (C7_blunder_plays_one_of_top_four
              (start Captures.six_moves) 500 "white"
              Captures.half Captures.two_thirds "Qxa8"
              toy_undo_restores eq_refl eq_refl eq_refl
              ltac:(by vm_compute))
    as (_ & _ & _ & _ & pick & Hpick & _ & _ & _ & Hplay).
  vm_compute in Hpick. injection Hpick as <-. exact Hplay.
Defined.

(** At the draw 0.7 itself the blunder test of the weakest band fails, and
    the best move is played; the product 0.6666666666666666 * 3 rounds up
    to 2. *)
Lemma double_boundaries :
  makeAIMove_double (start Captures.six_moves) 500 "white"
    Captures.seven_tenths Captures.two_thirds
  = (Some "Qxa8", move (start Captures.six_moves) "Qxa8") /\
  floorProduct Captures.two_thirds 3 = 2%nat.
Proof. split; vm_compute; reflexivity. Qed.

(** * Further properties of the code *)

(** ** Evaluation *)

Lemma cellValue_flip cell :
  cellValue (flip_piece <$> cell) = (- cellValue cell)%Z.
Proof.
  destruct cell as [[t col]|]; simpl; [|done].
  unfold switchColor. destruct (String.eqb col "w"); simpl; lia.
Qed.

Lemma cellAt_flip b r f :
  cellAt (flip_board b) r f = flip_piece <$> cellAt b r f.
Proof.
  unfold cellAt, flip_board. rewrite list_lookup_fmap.
  destruct (b !! r) as [row|]; simpl; [|done].
  rewrite list_lookup_fmap. by destruct (row !! f).
Qed.

Lemma material_flip b : material (flip_board b) = (- material b)%Z.
Proof.
  unfold material. cbn [foldl seq].
  rewrite !cellAt_flip, !cellValue_flip. lia.
Qed.

(** Switching the owner of every piece and the side to move negates the
    evaluation, in the terminal cases as well as in the material sum. *)
Theorem evaluateBoard_mirrored {P : Type} `{Chess P} (c c' : P) :
  mirrored c c' -> evaluateBoard c' = (- evaluateBoard c)%Z.
Proof.
  intros (Hm & Hd & Hs & Hr & Ht & Hb). unfold evaluateBoard.
  rewrite Hm, Hd, Hs, Hr, Ht, Hb.
  destruct (in_checkmate c).
  - unfold switchColor. by destruct (String.eqb (turn c) "w").
  - destruct (in_draw c || in_stalemate c || in_threefold_repetition c);
      [done | apply material_flip].
Qed.

Lemma evaluateBoard_mirrored_witness :
  evaluateBoard (start MoreSamples.black_up)
  = (- evaluateBoard (start MoreSamples.white_up))%Z.
Proof.
  apply evaluateBoard_mirrored. by repeat split.
Defined.

Lemma valueOf_div10 t : (10 | valueOf t)%Z.
Proof.
  destruct (decide (t ∈ known_types)) as [Hk|Hn].
  - unfold known_types in Hk.
    repeat (apply elem_of_cons in Hk;
            destruct Hk as [->|Hk];
            [match goal with
             | |- (10 | valueOf ?s)%Z => exists (valueOf s / 10)%Z; by vm_compute
             end|]).
    by apply elem_of_nil in Hk.
  - rewrite (valueOf_unknown _ Hn). apply Z.divide_0_r.
Qed.

Lemma cellValue_div10 cell : (10 | cellValue cell)%Z.
Proof.
  destruct cell as [piece|]; simpl; [|apply Z.divide_0_r].
  destruct (String.eqb _ _);
    [|apply Z.divide_opp_r]; apply valueOf_div10.
Qed.

Lemma material_div10 b : (10 | material b)%Z.
Proof.
  unfold material. cbn [foldl seq].
  repeat apply Z.divide_add_r;
    first [apply Z.divide_0_r | apply cellValue_div10].
Qed.

(** The mate scores cannot be mistaken for a material count: every material
    value is a multiple of ten, so [evaluateBoard] returns 999999 exactly on
    a checkmate with a side other than White to move, and -999999 exactly on
    a checkmate with White to move. *)
Theorem evaluateBoard_mate_score_iff {P : Type} `{Chess P} (chess : P) :
  (evaluateBoard chess = 999999%Z
   <-> in_checkmate chess = true /\ turn chess <> "w") /\
  (evaluateBoard chess = (-999999)%Z
   <-> in_checkmate chess = true /\ turn chess = "w").
Proof.
  assert (forall z, (10 | z)%Z -> z <> 999999%Z /\ z <> (-999999)%Z) as Hten.
  { intros z [k ->]. lia. }
  unfold evaluateBoard.
  destruct (in_checkmate chess).
  - destruct (String.eqb_spec (turn chess) "w") as [Hw|Hw];
      split; split; try done; intros [_ ?]; done.
  - destruct (in_draw chess || in_stalemate chess
              || in_threefold_repetition chess).
    + split; split; try done; intros [? _]; done.
    + destruct (Hten _ (material_div10 (board chess))).
      split; split; try done; intros [? _]; done.
Qed.

Lemma cellValue_bound cell : (- 20000 <= cellValue cell <= 20000)%Z.
Proof.
  assert (forall t, 0 <= valueOf t <= 20000)%Z as Hv.
  { intros t. destruct (decide (t ∈ known_types)) as [Hk|Hn].
    - unfold known_types in Hk.
      repeat (apply elem_of_cons in Hk;
              destruct Hk as [->|Hk]; [by vm_compute|]).
      by apply elem_of_nil in Hk.
    - rewrite (valueOf_unknown _ Hn). lia. }
  destruct cell as [piece|]; simpl; [|lia].
  specialize (Hv (type piece)). destruct (String.eqb _ _); lia.
Qed.

Lemma foldl_step_bound (step : Z -> nat -> Z) (D : Z) l acc :
  (forall v i, v - D <= step v i <= v + D)%Z ->
  (acc - D * Z.of_nat (length l) <= foldl step acc l
   <= acc + D * Z.of_nat (length l))%Z.
Proof.
  intros Hstep. revert acc.
  induction l as [|i l IH]; intros acc; simpl; [lia|].
  specialize (IH (step acc i)). specialize (Hstep acc i). lia.
Qed.

Lemma material_bound b : (- 1280000 <= material b <= 1280000)%Z.
Proof.
  unfold material.
  pose proof (foldl_step_bound
    (fun value r =>
       foldl (fun value f => (value + cellValue (cellAt b r f))%Z)
             value (seq 0 8)) 160000 (seq 0 8) 0) as Hb.
  rewrite length_seq in Hb. simpl in Hb. apply Hb. clear Hb.
  intros v r.
  pose proof (foldl_step_bound
    (fun value f => (value + cellValue (cellAt b r f))%Z)
    20000 (seq 0 8) v) as Hb.
  rewrite length_seq in Hb. simpl in Hb.
  assert (v - 160000 = v - 20000 * 8)%Z as -> by lia.
  assert (v + 160000 = v + 20000 * 8)%Z as -> by lia.
  apply Hb. intros v' f. pose proof (cellValue_bound (cellAt b r f)). lia.
Qed.

Lemma evaluateBoard_bound {P : Type} `{Chess P} (chess : P) :
  (- 1280000 <= evaluateBoard chess <= 1280000)%Z.
Proof.
  unfold evaluateBoard.
  repeat match goal with |- context [if ?b then _ else _] => destruct b end;
    try lia.
  apply material_bound.
Qed.

(** ** Strength table *)

(** Whatever the slider gives, the search depth lies in 1..6, so that
    [maxDepth - 1] is never negative, and the blunder probability lies
    between 0.02 and 0.7. *)
Theorem eloToParams_range (elo : Z) :
  (1 <= depth (eloToParams elo) <= 6)%nat /\
  (0.02 <= randomness (eloToParams elo))%Q /\
  (randomness (eloToParams elo) <= 0.7)%Q.
Proof.
  unfold eloToParams.
  repeat match goal with
         | |- context [(?x <? ?y)%Z] => destruct (Z.ltb_spec x y)
         end;
    simpl; (split; [lia|]); split; unfold Qle; simpl; lia.
Qed.

(** ** Move ordering *)

(** Ordering is idempotent and keeps the number of moves; a list whose
    captures already come first is returned as it is. *)
Theorem orderMoves_idempotent (l : list string) :
  orderMoves (orderMoves l) = orderMoves l /\
  length (orderMoves l) = length l /\
  (forall caps quiet,
     Forall (fun m => includes_x m = true) caps ->
     Forall (fun m => includes_x m = false) quiet ->
     orderMoves (caps ++ quiet) = caps ++ quiet).
Proof.
  assert (forall caps quiet,
            Forall (fun m => includes_x m = true) caps ->
            Forall (fun m => includes_x m = false) quiet ->
            orderMoves (caps ++ quiet) = caps ++ quiet) as Hfix.
  { intros caps quiet Hc Hq. rewrite orderMoves_partition.
    rewrite (filter_app_id includes_x caps quiet Hc Hq).
    f_equal. rewrite List.filter_app.
    replace (List.filter (fun m => negb (includes_x m)) caps) with (@nil string).
    - simpl. clear - Hq.
      induction Hq as [|x q Hx _ IH]; simpl; [done|]. by rewrite Hx, IH.
    - clear - Hc.
      induction Hc as [|x c Hx _ IH]; simpl; [done|]. by rewrite Hx. }
  split; [|split; [apply js_sort_length | exact Hfix]].
  rewrite (orderMoves_partition l).
  apply Hfix; [apply Forall_filter_true | apply Forall_filter_false].
Qed.

Lemma orderMoves_idempotent_witness :
  orderMoves (["Nxe5"; "exd5"] ++ ["e4"; "Nf3"])
  = ["Nxe5"; "exd5"] ++ ["e4"; "Nf3"].
Proof.
  apply (proj2 (proj2 (orderMoves_idempotent []))); by repeat constructor.
Defined.

Lemma js_insert_byScore_filter (z : Z) x l :
  List.filter (fun e : string * Z => (e.2 =? z)%Z) (js_insert byScoreDesc x l)
  = List.filter (fun e : string * Z => (e.2 =? z)%Z) (x :: l).
Proof.
  induction l as [|y l IH]; [done|].
  cbn [js_insert]. unfold byScoreDesc at 1.
  destruct (Z.leb_spec (y.2 - x.2) 0) as [Hle|Hgt]; [done|].
  cbn [List.filter] in *. rewrite IH.
  destruct (Z.eqb_spec x.2 z) as [Hx|Hx]; [|done].
  destruct (Z.eqb_spec y.2 z) as [Hy|Hy]; [lia | done].
Qed.

Lemma filter_all {A} (f : A -> bool) l :
  Forall (fun x => f x = true) l -> List.filter f l = l.
Proof. induction 1 as [|x l Hx _ IH]; simpl; [done|]. by rewrite Hx, IH. Qed.

(** The ranking of the blunder branch is stable: moves with the same
    one-ply score stay in the order in which they were generated.  When all
    moves score the same, the ranking is the move list itself. *)
Theorem byScoreDesc_sort_stable (scored : list (string * Z)) (z : Z) :
  List.filter (fun e : string * Z => (e.2 =? z)%Z) (js_sort byScoreDesc scored)
  = List.filter (fun e : string * Z => (e.2 =? z)%Z) scored /\
  (Forall (fun e : string * Z => e.2 = z) scored ->
   js_sort byScoreDesc scored = scored).
Proof.
  assert (List.filter (fun e : string * Z => (e.2 =? z)%Z)
                      (js_sort byScoreDesc scored)
          = List.filter (fun e : string * Z => (e.2 =? z)%Z) scored) as Hst.
  { induction scored as [|x l IH]; [done|].
    cbn [js_sort]. rewrite js_insert_byScore_filter.
    cbn [List.filter]. by rewrite IH. }
  split; [exact Hst|].
  intros Hall.
  rewrite (filter_all _ scored) in Hst.
  - rewrite filter_all in Hst; [done|].
    rewrite (js_sort_perm byScoreDesc scored).
    eapply Forall_impl; [exact Hall|]. simpl. intros e ->. apply Z.eqb_refl.
  - eapply Forall_impl; [exact Hall|]. simpl. intros e ->. apply Z.eqb_refl.
Qed.

Lemma byScoreDesc_sort_stable_witness :
  js_sort byScoreDesc [("e4", 0%Z); ("d4", 0%Z); ("Nf3", 0%Z)]
  = [("e4", 0%Z); ("d4", 0%Z); ("Nf3", 0%Z)].
Proof.
  apply (proj2 (byScoreDesc_sort_stable _ 0%Z)). by repeat constructor.
Defined.

(** ** Search *)

Lemma slt_trans a b c : slt a b -> slt b c -> slt a c.
Proof. score_cases. Qed.

Lemma sle_slt_trans a b c : sle a b -> slt b c -> slt a c.
Proof. score_cases. Qed.

Lemma slt_sle a b : slt a b -> sle a b.
Proof. score_cases. Qed.

Lemma bounded_score_neg a : bounded_score a -> bounded_score (sneg a).
Proof. intros (z & -> & Hz). exists (- z)%Z. split; [done | lia]. Qed.

Lemma leafScore_bounded {P : Type} `{Chess P} (c : P) p :
  bounded_score (leafScore c p).
Proof.
  unfold leafScore. pose proof (evaluateBoard_bound c).
  destruct (String.eqb p "w"); eexists; split; try done; lia.
Qed.

Section Bounded.
Context {P : Type} `{Chess P}.
Hypothesis Hstuck : stuck_is_over.

Lemma negamax_loop_bounded rec rest (c : P) alpha beta max :
  (forall c' a b, bounded_score (rec c' a b).1) ->
  (max = NegInf /\ rest <> []) \/ bounded_score max ->
  bounded_score (negamax_loop rec rest c alpha beta max).1.
Proof.
  intros Hrec. revert c alpha max.
  induction rest as [|mv rest IH]; intros c alpha max Hmax; simpl.
  - destruct Hmax as [[_ ?]|?]; done.
  - pose proof (bounded_score_neg _
                  (Hrec (move c mv) (sneg beta) (sneg alpha))) as Hs.
    destruct (rec (move c mv) (sneg beta) (sneg alpha)) as [r c2].
    simpl in Hs.
    assert (bounded_score (if sgtb (sneg r) max then sneg r else max)) as Hb.
    { destruct Hmax as [[-> _]|Hmax].
      - destruct Hs as (z & -> & Hz). simpl. by exists z.
      - by destruct (sgtb _ _). }
    destruct (sgeb _ beta); simpl; [exact Hb|].
    apply IH. by right.
Qed.

Lemma negamax_bounded_aux depth (c : P) alpha beta p :
  bounded_score (negamax depth c alpha beta p).1.
Proof.
  revert c alpha beta.
  induction depth as [|d IH]; intros c alpha beta; simpl.
  - apply leafScore_bounded.
  - destruct (game_over c) eqn:Hover; simpl; [apply leafScore_bounded|].
    apply negamax_loop_bounded; [intros; apply IH|].
    left. split; [done|]. intros Hnil.
    assert (moves c = []) as Hm.
    { apply length_zero_iff_nil.
      by rewrite <- (js_sort_length captureFirst), Hnil. }
    apply Hstuck in Hm. congruence.
Qed.
End Bounded.

(** When every position without moves is reported as over, [negamax]
    returns neither infinity: its result is an integer between -1280000 and
    1280000, for every depth and window. *)
Theorem negamax_bounded {P : Type} `{Chess P} :
  stuck_is_over ->
  forall (depth : nat) (chess : P) (alpha beta : Score) (p : string),
    bounded_score (negamax depth chess alpha beta p).1.
Proof. intros Hstuck depth chess alpha beta p. by apply negamax_bounded_aux. Qed.

Lemma negamax_bounded_witness :
  bounded_score (negamax 2 (start Samples.with_cutoff) NegInf PosInf "w").1.
Proof. apply (negamax_bounded toy_stuck_is_over). Defined.

Section RootLoop.
Context {P : Type} `{Chess P}.
Hypothesis Hundo : undo_restores.

Lemma getBestMove_loop_step maxDepth aiColor mv rest (c : P) bm bs :
  undo (move c mv) = c ->
  getBestMove_loop maxDepth aiColor (mv :: rest) c bm bs
  = if sgtb (child_score maxDepth aiColor c mv) bs
    then getBestMove_loop maxDepth aiColor rest c (Some mv)
           (child_score maxDepth aiColor c mv)
    else getBestMove_loop maxDepth aiColor rest c bm bs.
Proof.
  intros Hmv. cbn [getBestMove_loop]. unfold child_score.
  pose proof (negamax_restores Hundo (maxDepth - 1) (move c mv) NegInf PosInf
                (switchColor aiColor)) as Hr.
  destruct (negamax _ _ _ _ _) as [r c2]. simpl in *. subst c2.
  by rewrite Hmv.
Qed.

Lemma getBestMove_loop_score maxDepth aiColor rest (c : P) bm bs :
  (forall m, m ∈ rest -> undo (move c m) = c) ->
  (getBestMove_loop maxDepth aiColor rest c bm bs).1.2
  = foldl (fun acc m => smax acc (child_score maxDepth aiColor c m)) bs rest.
Proof.
  revert bm bs.
  induction rest as [|mv rest IH]; intros bm bs Hlegal; [done|].
  rewrite getBestMove_loop_step by (apply Hlegal, list_elem_of_here).
  cbn [foldl]. unfold smax at 2, sgtb.
  destruct (sltb bs _); apply IH; intros m Hm; apply Hlegal;
    by apply list_elem_of_further.
Qed.

Lemma getBestMove_loop_first maxDepth aiColor rest (c : P) bm bs :
  (forall m, m ∈ rest -> undo (move c m) = c) ->
  let s := child_score maxDepth aiColor c in
  let r := (getBestMove_loop maxDepth aiColor rest c bm bs).1 in
  (r = (bm, bs) /\ forall m, m ∈ rest -> sle (s m) bs) \/
  (exists i m,
     rest !! i = Some m /\ r = (Some m, s m) /\ slt bs (s m) /\
     (forall j m', (j < i)%nat -> rest !! j = Some m' -> slt (s m') (s m)) /\
     (forall m', m' ∈ rest -> sle (s m') (s m))).
Proof.
  intros Hlegal s. revert bm bs.
  induction rest as [|mv rest IH]; intros bm bs.
  - left. split; [done|]. intros m Hm. by apply elem_of_nil in Hm.
  - assert (forall m, m ∈ rest -> undo (move c m) = c) as Hrest
      by (intros m Hm; apply Hlegal; by apply list_elem_of_further).
    specialize (IH Hrest).
    rewrite getBestMove_loop_step by (apply Hlegal, list_elem_of_here).
    fold (s mv). destruct (sgtb (s mv) bs) eqn:Hgt.
    + right. destruct (IH (Some mv) (s mv)) as [[Hr Hle]|(i & m & Hi & Hr & Hlt & Hbefore & Hall)].
      * exists 0%nat, mv. split; [done|]. split; [exact Hr|].
        split; [exact Hgt|]. split; [intros; lia|].
        intros m' Hm'. apply elem_of_cons in Hm' as [->|Hm'];
          [apply sle_refl | by apply Hle].
      * exists (S i), m. split; [exact Hi|]. split; [exact Hr|].
        split; [exact (slt_trans _ _ _ Hgt Hlt)|]. split.
        -- intros [|j] m' Hj Hm'; simpl in Hm'.
           ++ injection Hm' as <-. exact Hlt.
           ++ apply (Hbefore j); [lia | done].
        -- intros m' Hm'. apply elem_of_cons in Hm' as [->|Hm'];
             [by apply slt_sle | by apply Hall].
    + destruct (IH bm bs) as [[Hr Hle]|(i & m & Hi & Hr & Hlt & Hbefore & Hall)].
      * left. split; [exact Hr|].
        intros m' Hm'. apply elem_of_cons in Hm' as [->|Hm'];
          [exact Hgt | by apply Hle].
      * right. exists (S i), m. split; [exact Hi|]. split; [exact Hr|].
        split; [exact Hlt|]. split.
        -- intros [|j] m' Hj Hm'; simpl in Hm'.
           ++ injection Hm' as <-. exact (sle_slt_trans _ _ _ Hgt Hlt).
           ++ apply (Hbefore j); [lia | done].
        -- intros m' Hm'. apply elem_of_cons in Hm' as [->|Hm'];
             [apply slt_sle; exact (sle_slt_trans _ _ _ Hgt Hlt) | by apply Hall].
Qed.
End RootLoop.

Lemma foldl_smax_ext {A} (f g : A -> Score) l acc :
  (forall x, x ∈ l -> f x = g x) ->
  foldl (fun a x => smax a (f x)) acc l = foldl (fun a x => smax a (g x)) acc l.
Proof.
  revert acc. induction l as [|x l IH]; intros acc Hfg; simpl; [done|].
  rewrite (Hfg x) by apply list_elem_of_here.
  apply IH. intros y Hy. apply Hfg. by apply list_elem_of_further.
Qed.

Lemma getBestMove_unfold {P : Type} `{Chess P} (c : P) maxDepth aiColor :
  moves c <> [] ->
  (getBestMove c maxDepth aiColor).1
  = Some {| result_move :=
              (getBestMove_loop maxDepth aiColor (orderMoves (moves c)) c
                 None NegInf).1.1;
            result_score :=
              (getBestMove_loop maxDepth aiColor (orderMoves (moves c)) c
                 None NegInf).1.2 |}.
Proof.
  intros Hne. unfold getBestMove.
  destruct (moves c) as [|m0 ms] eqn:Hmoves; [done|].
  cbn [length Nat.eqb]. rewrite <- Hmoves.
  by destruct (getBestMove_loop _ _ _ _ _ _) as [[bm bs] c'].
Qed.

Lemma getBestMove_first_maximal_aux {P : Type} `{Chess P}
    (chess : P) (d : nat) (aiColor : string) :
  undo_restores ->
  moves chess <> [] ->
  let s := child_score (S d) aiColor chess in
  exists (bm : option string) (sc : Score),
    (getBestMove chess (S d) aiColor).1
    = Some {| result_move := bm; result_score := sc |} /\
    (forall m, m ∈ moves chess -> sle (s m) sc) /\
    ((bm = None /\ sc = NegInf) \/
     exists i m,
       orderMoves (moves chess) !! i = Some m /\ bm = Some m /\ s m = sc /\
       forall j m', (j < i)%nat ->
                    orderMoves (moves chess) !! j = Some m' -> slt (s m') sc).
Proof.
  intros Hundo Hne s.
  assert (forall m, m ∈ orderMoves (moves chess) -> undo (move chess m) = chess)
    as Hlegal by (intros m Hm; apply Hundo; by apply js_sort_elem in Hm).
  rewrite (getBestMove_unfold _ _ _ Hne).
  destruct (getBestMove_loop_first Hundo (S d) aiColor
              (orderMoves (moves chess)) chess None NegInf Hlegal)
    as [[Hr Hle]|(i & m & Hi & Hr & Hlt & Hbefore & Hall)].
  - exists None, NegInf. rewrite Hr. split; [done|]. split; [|by left].
    intros m Hm. apply Hle. by apply js_sort_elem.
  - exists (Some m), (s m). rewrite Hr. split; [done|]. split.
    + intros m' Hm'. apply Hall. by apply js_sort_elem.
    + right. exists i, m. by repeat split.
Qed.

(** [getBestMove] returns the largest root score, no root move scores
    higher, and the move returned is the first one in the ordered list that
    reaches it (a later move with the same score does not replace it).  The
    move is [null] only if every root score is -Infinity. *)
Theorem getBestMove_first_maximal {P : Type} `{Chess P}
    (chess : P) (d : nat) (aiColor : string) :
  undo_restores ->
  moves chess <> [] ->
  let s := child_score (S d) aiColor chess in
  exists (bm : option string) (sc : Score),
    (getBestMove chess (S d) aiColor).1
    = Some {| result_move := bm; result_score := sc |} /\
    (forall m, m ∈ moves chess -> sle (s m) sc) /\
    ((bm = None /\ sc = NegInf) \/
     exists i m,
       orderMoves (moves chess) !! i = Some m /\ bm = Some m /\ s m = sc /\
       forall j m', (j < i)%nat ->
                    orderMoves (moves chess) !! j = Some m' -> slt (s m') sc).
Proof. apply getBestMove_first_maximal_aux. Qed.

Lemma getBestMove_first_maximal_witness :
  exists (bm : option string) (sc : Score),
    (getBestMove (start Samples.middlegame) 2 "w").1
    = Some {| result_move := bm; result_score := sc |} /\
    (forall m, m ∈ moves (start Samples.middlegame) ->
               sle (child_score 2 "w" (start Samples.middlegame) m) sc).
Proof.
  destruct (getBestMove_first_maximal (start Samples.middlegame) 1 "w"
              toy_undo_restores ltac:(discriminate))
    as (bm & sc & Hr & Hle & _).
  exists bm, sc. split; [exact Hr | exact Hle].
Defined.

(** On a position that is not over, the score [getBestMove] returns is the
    value [negamax] itself gives for the root at depth [maxDepth], on the
    full window, with the perspective [switchColor(aiColor)]. *)
Theorem getBestMove_score_is_root_negamax {P : Type} `{Chess P}
    (chess : P) (d : nat) (aiColor : string) :
  undo_restores ->
  game_over chess = false ->
  moves chess <> [] ->
  result_score <$> (getBestMove chess (S d) aiColor).1
  = Some (negamax (S d) chess NegInf PosInf (switchColor aiColor)).1.
Proof.
  intros Hundo Hover Hne.
  assert (forall m, m ∈ orderMoves (moves chess) -> undo (move chess m) = chess)
    as Hlegal by (intros m Hm; apply Hundo; by apply js_sort_elem in Hm).
  rewrite (getBestMove_unfold _ _ _ Hne). cbn [fmap option_fmap option_map result_score].
  f_equal.
  rewrite (getBestMove_loop_score Hundo _ _ _ _ _ _ Hlegal).
  rewrite (Bound_full_window _ _
             (negamax_sound Hundo (S d) chess NegInf PosInf
                (switchColor aiColor) eq_refl)).
  cbn [negamax_full]. rewrite Hover. unfold orderMoves.
  apply foldl_smax_ext. intros m _. unfold child_score.
  replace (S d - 1)%nat with d by lia.
  f_equal. apply Bound_full_window. by apply negamax_sound.
Qed.

Lemma getBestMove_score_is_root_negamax_witness :
  result_score <$> (getBestMove (start Samples.middlegame) 2 "w").1
  = Some (negamax 2 (start Samples.middlegame) NegInf PosInf (switchColor "w")).1.
Proof.
  apply getBestMove_score_is_root_negamax;
    [exact toy_undo_restores | reflexivity | discriminate].
Defined.

Lemma child_score_depth1 {P : Type} `{Chess P} (c : P) aiColor m :
  child_score 1 aiColor c m = leafScore (move c m) aiColor.
Proof.
  unfold child_score, switchColor. cbn [Nat.sub negamax fst].
  destruct (String.eqb aiColor "w") eqn:Hw; unfold leafScore; rewrite ?Hw;
    simpl; f_equal; lia.
Qed.

(** At depth 1 [getBestMove] returns a legal move whose resulting position
    has the best evaluation from the AI's side, with that evaluation as the
    score: no legal move leads to a better one. *)
Theorem getBestMove_depth1_greedy {P : Type} `{Chess P}
    (chess : P) (aiColor : string) :
  undo_restores ->
  moves chess <> [] ->
  exists (mv : string),
    (getBestMove chess 1 aiColor).1
    = Some {| result_move := Some mv;
              result_score := leafScore (move chess mv) aiColor |} /\
    mv ∈ moves chess /\
    forall m, m ∈ moves chess ->
              sle (leafScore (move chess m) aiColor)
                  (leafScore (move chess mv) aiColor).
Proof.
  intros Hundo Hne.
  destruct (getBestMove_first_maximal_aux chess 0 aiColor Hundo Hne)
    as (bm & sc & Hr & Hle & Hbm).
  destruct Hbm as [[-> ->]|(i & m & Hi & -> & <- & _)].
  - exfalso. destruct (moves chess) as [|m0 ms]; [done|].
    specialize (Hle m0 (list_elem_of_here _ _)).
    rewrite child_score_depth1 in Hle.
    destruct (leafScore_finite (move chess m0) aiColor) as [z Hz].
    rewrite Hz in Hle. done.
  - exists m. rewrite Hr, child_score_depth1. split; [done|]. split.
    + apply (js_sort_elem captureFirst). apply list_elem_of_lookup. eauto.
    + intros m' Hm'. rewrite <- !child_score_depth1. by apply Hle.
Qed.

Lemma getBestMove_depth1_greedy_witness :
  exists (mv : string),
    (getBestMove (start Samples.middlegame) 1 "w").1
    = Some {| result_move := Some mv;
              result_score := leafScore (move (start Samples.middlegame) mv) "w" |}
    /\ mv ∈ moves (start Samples.middlegame).
Proof.
  destruct (getBestMove_depth1_greedy (start Samples.middlegame) "w"
              toy_undo_restores ltac:(discriminate)) as (mv & Hr & Hin & _).
  exists mv. split; [exact Hr | exact Hin].
Defined.

(** ** The move played *)








(** The random fallback is dead code under the contract: when positions
    without moves are reported as over and no SAN string is empty,
    [getBestMove] always returns a usable move for a position with moves. *)
Theorem fallback_not_taken {P : Type} `{Chess P}
    (chess : P) (d : nat) (aiColor : string) :
  stuck_is_over ->
  moves chess <> [] ->
  "" ∉ moves chess ->
  exists bestMove,
    usable_move (getBestMove chess (S d) aiColor).1 = Some bestMove.
Proof.
  intros Hstuck Hne Hsan.
  rewrite (getBestMove_unfold _ _ _ Hne).
  assert (orderMoves (moves chess) <> []) as Hord.
  { intros Hnil. apply (f_equal length) in Hnil.
    unfold orderMoves in Hnil. rewrite js_sort_length in Hnil.
    by destruct (moves chess). }
  pose proof (getBestMove_loop_some Hstuck (S d) aiColor
                (orderMoves (moves chess)) chess None NegInf
                (fun _ => eq_refl) (or_introl Hord)) as Hnn.
  destruct (getBestMove_loop_member (S d) aiColor (orderMoves (moves chess))
              chess None NegInf) as [Hm|(m & Hm & Hin)]; [done|].
  rewrite Hm. simpl. exists m.
  destruct (String.eqb_spec m "") as [->|]; [|done].
  by apply js_sort_elem in Hin.
Qed.

Lemma fallback_not_taken_witness :
  exists bestMove,
    usable_move (getBestMove (start Samples.middlegame) 2 "w").1 = Some bestMove.
Proof.
  apply fallback_not_taken; [exact toy_stuck_is_over | discriminate |].
  apply (bool_decide_unpack _). vm_compute. exact I.
Defined.

(** ** The page *)

Lemma aiToMove_blocks_drag {P : Type} `{ChessPage P}
    (game : P) (aiSide piece : string) :
  turn game = "w" \/ turn game = "b" ->
  aiToMove game aiSide = true ->
  onDragStart game true aiSide piece = Some false.
Proof.
  intros Hturn Hai. unfold aiToMove in Hai. cbv zeta in Hai.
  unfold onDragStart.
  destruct (game_over game); [done|].
  destruct Hturn as [Ht|Ht]; rewrite Ht in *.
  - change (String.eqb "w" "w") with true in Hai.
    apply String.eqb_eq in Hai. by subst aiSide.
  - change (String.eqb "b" "w") with false in Hai.
    apply String.eqb_eq in Hai. by subst aiSide.
Qed.

(** Whenever [onDrop] or the checkbox handler lets the AI move, the player
    cannot pick up any piece in that position: [onDragStart] returns
    [false]. *)
Theorem drag_blocked_while_ai_to_move {P : Type} `{ChessPage P}
    (game : P) (playAI : bool) (aiSide source target piece : string) :
  turn_is_wb ->
  (forall r game', onDrop game playAI aiSide source target = (r, game', true) ->
                   onDragStart game' playAI aiSide piece = Some false) /\
  (aiMoveDue game aiSide = true ->
   onDragStart game true aiSide piece = Some false).
Proof.
  intros Hwb. split.
  - intros r game' Hdrop. unfold onDrop in Hdrop.
    destruct (move_from_to game source target) as [g1|]; [|done].
    destruct playAI; simpl in Hdrop; [|by destruct (game_over g1)].
    destruct (game_over g1); simpl in Hdrop; [done|].
    injection Hdrop as _ <- Hai.
    by apply aiToMove_blocks_drag.
  - unfold aiMoveDue. intros Hdue. apply andb_true_iff in Hdue as [Hai _].
    by apply aiToMove_blocks_drag.
Qed.


(** The status line and the evaluation agree on who is mated: the text is
    "Checkmate. White wins" exactly when the evaluation is +999999 and
    "Checkmate. Black wins" exactly when it is -999999; a position shown as
    "Draw" evaluates to 0. *)
Theorem updateStatus_agrees_with_evaluation {P : Type} `{ChessPage P}
    (game : P) :
  (updateStatus game = "Checkmate. White wins"
   <-> evaluateBoard game = 999999%Z) /\
  (updateStatus game = "Checkmate. Black wins"
   <-> evaluateBoard game = (-999999)%Z) /\
  (updateStatus game = "Draw" -> evaluateBoard game = 0%Z).
Proof.
  assert (forall z, (10 | z)%Z -> z <> 999999%Z /\ z <> (-999999)%Z) as Hten.
  { intros z [k ->]. lia. }
  unfold updateStatus, evaluateBoard.
  destruct (in_checkmate game).
  - destruct (String.eqb (turn game) "w"); simpl; repeat split; done.
  - destruct (in_draw game); simpl; [repeat split; done|].
    destruct (Hten _ (material_div10 (board game))) as [Hp Hn].
    destruct (in_stalemate game || in_threefold_repetition game);
      destruct (String.eqb (turn game) "w"), (in_check game); simpl;
      repeat split; done.
Qed.


Lemma stuck_turn_is_wb : turn_is_wb (P := bool).
Proof. intros [|]; [by left | by right]. Qed.

Lemma drag_blocked_while_ai_to_move_witness :
  onDragStart false true "black" "wK" = Some false.
Proof.
  apply (proj1 (drag_blocked_while_ai_to_move
                  true true "black" "h2" "Kh1" "wK" stuck_turn_is_wb)
           None false).
  reflexivity.
Defined.


Lemma sanAt_app_l pre h i :
  (i < length pre)%nat -> sanAt (pre ++ h) i = sanAt pre i.
Proof. intros Hi. unfold sanAt. by rewrite lookup_app_l. Qed.

Lemma sanAt_middle pre x h : sanAt (pre ++ x :: h) (length pre) = x.
Proof. unfold sanAt. by rewrite list_lookup_middle. Qed.

Lemma moveRows_length (h : list string) :
  length (moveRows h) = ((length h + 1) / 2)%nat.
Proof. unfold moveRows. by rewrite length_fmap, length_seq. Qed.

Lemma moveRows_number (h : list string) k row :
  moveRows h !! k = Some row -> row.1.1 = (k + 1)%nat.
Proof.
  unfold moveRows. rewrite list_lookup_fmap. intros Hrow.
  destruct (seq 0 ((length h + 1) / 2) !! k) as [k'|] eqn:Hk; [|done].
  apply lookup_seq in Hk as [-> _]. injection Hrow as <-.
  unfold moveRow. cbn [fst].
  replace (k + (k + 0))%nat with (k * 2)%nat by lia.
  by rewrite Nat.div_mul.
Qed.

(** The rows from index [2 * n] on spell out the rest of the history. *)
Lemma rows_spell_rest (h : list string) :
  "" ∉ h ->
  forall pre n,
    length pre = (2 * n)%nat ->
    concat (row_moves <$>
              ((fun k => moveRow (pre ++ h) (2 * k))
                 <$> seq n ((length h + 1) / 2))) = h.
Proof.
  enough (("" ∉ h ->
           forall pre n, length pre = (2 * n)%nat ->
             concat (row_moves <$>
                       ((fun k => moveRow (pre ++ h) (2 * k))
                          <$> seq n ((length h + 1) / 2))) = h) /\
          (forall x, "" ∉ x :: h ->
           forall pre n, length pre = (2 * n)%nat ->
             concat (row_moves <$>
                       ((fun k => moveRow (pre ++ x :: h) (2 * k))
                          <$> seq n ((length (x :: h) + 1) / 2))) = x :: h))
    as [Hh _] by exact Hh.
  induction h as [|b rest [IH0 IH1]].
  - split; [done|].
    intros x Hx pre n Hpre.
    change ((length [x] + 1) / 2)%nat with 1%nat.
    cbn [seq fmap list_fmap concat]. rewrite app_nil_r.
    unfold moveRow, row_moves.
    rewrite <- Hpre, sanAt_middle.
    replace (sanAt (pre ++ [x]) (length pre + 1)) with "".
    + done.
    + unfold sanAt. rewrite lookup_ge_None_2; [done|].
      rewrite length_app. simpl. lia.
  - split; [by apply IH1|].
    intros x Hx pre n Hpre.
    apply not_elem_of_cons in Hx as [Hx Hrest].
    apply not_elem_of_cons in Hrest as [Hb Hrest].
    replace ((length (x :: b :: rest) + 1) / 2)%nat
      with (S ((length rest + 1) / 2)).
    2:{ cbn [length].
        replace (S (S (length rest)) + 1)%nat
          with ((length rest + 1) + 1 * 2)%nat by lia.
        rewrite Nat.div_add by lia. lia. }
    cbn [seq fmap list_fmap concat].
    assert (moveRow (pre ++ x :: b :: rest) (2 * n)
            = ((2 * n / 2 + 1)%nat, x, b)) as ->.
    { unfold moveRow. rewrite <- Hpre, sanAt_middle. f_equal.
      replace (pre ++ x :: b :: rest) with ((pre ++ [x]) ++ b :: rest)
        by (by rewrite <- app_assoc).
      replace (length pre + 1)%nat with (length (pre ++ [x]))
        by (rewrite length_app; simpl; lia).
      apply sanAt_middle. }
    unfold row_moves at 1.
    destruct (String.eqb_spec b "") as [->|_]; [done|].
    simpl. f_equal. f_equal.
    specialize (IH0 Hrest (pre ++ [x; b]) (S n)).
    rewrite <- app_assoc in IH0. simpl in IH0.
    apply IH0. rewrite length_app. simpl. lia.
Qed.

(** The move list shows the whole game: there is one row for every two
    half-moves (rounded up), row [k] carries the number [k + 1], and reading
    the rows in order gives back the history when no SAN string is empty. *)
Theorem moveRows_show_history (h : list string) :
  length (moveRows h) = ((length h + 1) / 2)%nat /\
  (forall k row, moveRows h !! k = Some row -> row.1.1 = (k + 1)%nat) /\
  ("" ∉ h -> concat (row_moves <$> moveRows h) = h).
Proof.
  split; [apply moveRows_length|]. split; [apply moveRows_number|].
  intros Hh. exact (rows_spell_rest h Hh [] 0%nat eq_refl).
Qed.

Lemma moveRows_show_history_witness :
  concat (row_moves <$> moveRows ["e4"; "e5"; "Nf3"]) = ["e4"; "e5"; "Nf3"].
Proof.
  apply (proj2 (proj2 (moveRows_show_history ["e4"; "e5"; "Nf3"]))).
  apply (bool_decide_unpack _). vm_compute. exact I.
Defined.
